(** * Threadbaire server: entry store, query builder, sequence assigner
      and status normaliser

    A shallow embedding of [lib/types.ts], [lib/config.ts], [lib/db.ts],
    [lib/auth.ts], the routes under [app/api/entries] and the grouping
    of the entry list.

    Strings are JavaScript strings: finite sequences of UTF-16 code
    units, written here as lists of integers.  The database is a single
    table [entries]; a table is the list of its rows in insertion order
    together with the last identifier handed out.  Statements that can
    fail (constraint violations, a missing relation, a rejected LIMIT)
    return in an error type.  A route handler takes the request and the
    database and returns the database it leaves and its response. *)

From Stdlib Require Import String Ascii ZArith List Bool Lia.
From Stdlib Require Import Permutation Sorted.
Import ListNotations.

Open Scope Z_scope.

(* ====================================================================== *)
(** ** JavaScript strings *)
(* ====================================================================== *)

Definition jsstring := list Z.

(** An ASCII literal as a JavaScript string. *)
Definition js (s : string) : jsstring :=
  map (fun a => Z.of_N (N_of_ascii a)) (list_ascii_of_string s).

(** UTF-16 encoding of one code point (a surrogate pair above the BMP). *)
Definition utf16 (cp : Z) : jsstring :=
  if cp <? 65536 then [cp]
  else [55296 + (cp - 65536) / 1024; 56320 + (cp - 65536) mod 1024].

Fixpoint jsstring_eqb (a b : jsstring) : bool :=
  match a, b with
  | [], [] => true
  | x :: a', y :: b' => (x =? y) && jsstring_eqb a' b'
  | _, _ => false
  end.

(** [\s] of a regular expression and the characters removed by
    [String.prototype.trim]: WhiteSpace and LineTerminator. *)
Definition is_white_space (c : Z) : bool :=
  existsb (Z.eqb c)
    [9; 10; 11; 12; 13; 32; 160; 5760; 8232; 8233; 8239; 8287; 12288; 65279]
  || ((8192 <=? c) && (c <=? 8202)).

Fixpoint trimStart (s : jsstring) : jsstring :=
  match s with
  | c :: s' => if is_white_space c then trimStart s' else s
  | [] => []
  end.

Definition trimEnd (s : jsstring) : jsstring := rev (trimStart (rev s)).

Definition trim (s : jsstring) : jsstring := trimEnd (trimStart s).

(** [toLowerCase], restricted to the Basic Latin letters: every other
    code unit is left as it is. *)
Definition lower_unit (c : Z) : Z :=
  if (65 <=? c) && (c <=? 90) then c + 32 else c.

Definition toLowerCase (s : jsstring) : jsstring := map lower_unit s.

(** [s.replace(/[...]/g, '')] for a character class given by its code
    units: without the [u] flag the class is a set of code units. *)
Definition remove_class (class : list Z) (s : jsstring) : jsstring :=
  filter (fun c => negb (existsb (Z.eqb c) class)) s.

(** [s.replace(/\s+/g, r)]: every maximal run of white space becomes [r]. *)
Fixpoint replace_ws_runs (r : jsstring) (in_run : bool) (s : jsstring) : jsstring :=
  match s with
  | [] => []
  | c :: s' =>
      if is_white_space c
      then (if in_run then [] else r) ++ replace_ws_runs r true s'
      else c :: replace_ws_runs r false s'
  end.

(** [s.split(/\s+/)]: the pieces between maximal runs of white space;
    [cur] is the piece being read, reversed. *)
Fixpoint split_ws_from (cur : jsstring) (in_run : bool) (s : jsstring) : list jsstring :=
  match s with
  | [] => [rev cur]
  | c :: s' =>
      if is_white_space c
      then (if in_run then split_ws_from cur true s'
            else rev cur :: split_ws_from [] true s')
      else split_ws_from (c :: cur) false s'
  end.

Definition split_ws (s : jsstring) : list jsstring := split_ws_from [] false s.

(* ====================================================================== *)
(** ** Property lookup on object literals *)
(* ====================================================================== *)

(** What an expression [obj[key]] can evaluate to when [obj] is an object
    literal with string values: one of its strings, or a member that the
    literal inherits from [Object.prototype]. *)
Inductive JsValue : Type :=
| JsString (s : jsstring)
| JsInherited (name : jsstring).

(** The property names of [Object.prototype]. *)
Definition ObjectPrototype : list jsstring :=
  map js ["constructor"; "__defineGetter__"; "__defineSetter__";
          "hasOwnProperty"; "__lookupGetter__"; "__lookupSetter__";
          "isPrototypeOf"; "propertyIsEnumerable"; "toString"; "valueOf";
          "__proto__"; "toLocaleString"]%string.

(** [obj[key]]: own properties first, then the prototype; [None] is
    [undefined]. *)
Definition get_property (own : list (jsstring * jsstring)) (key : jsstring)
  : option JsValue :=
  match find (fun kv => jsstring_eqb (fst kv) key) own with
  | Some kv => Some (JsString (snd kv))
  | None =>
      if existsb (jsstring_eqb key) ObjectPrototype
      then Some (JsInherited key) else None
  end.

Definition truthy (v : JsValue) : bool :=
  match v with
  | JsString [] => false
  | _ => true
  end.

(** [a || b] where [a] is the result of a property lookup. *)
Definition js_or (a : option JsValue) (b : JsValue) : JsValue :=
  match a with
  | Some v => if truthy v then v else b
  | None => b
  end.

(* ====================================================================== *)
(** ** lib/config.ts and lib/types.ts: status display and normalisation *)
(* ====================================================================== *)

Definition STATUS_DISPLAY : list (jsstring * jsstring) :=
  [ (js "complete",    utf16 9989   ++ js " Complete");
    (js "in_progress", utf16 128993 ++ js " In Progress");
    (js "logged",      utf16 128993 ++ js " Logged");
    (js "queued",      utf16 128284 ++ js " Queued");
    (js "blocked",     utf16 128308 ++ js " Blocked");
    (js "observed",    utf16 128994 ++ js " Observed") ].

Definition STATUS_OPTIONS : list jsstring := map fst STATUS_DISPLAY.

(** The character class of [normalizeStatus]: five glyphs, read as code
    units. *)
Definition status_glyphs : list Z :=
  utf16 9989 ++ utf16 128993 ++ utf16 128284 ++ utf16 128308 ++ utf16 128994.

Definition mappings : list (jsstring * jsstring) :=
  [ (js "done", js "complete");
    (js "partial", js "in_progress");
    (js "urgent", js "blocked");
    (js "inprogress", js "in_progress") ].

Definition clean_status (input : jsstring) : jsstring :=
  replace_ws_runs (js "_") false
    (trim (remove_class status_glyphs (toLowerCase input))).

Definition normalizeStatus (input : jsstring) : JsValue :=
  let cleaned := clean_status input in
  js_or (get_property mappings cleaned) (JsString cleaned).

Definition getStatusDisplay (status : option jsstring) : JsValue :=
  match status with
  | None => JsString []
  | Some [] => JsString []
  | Some s => js_or (get_property STATUS_DISPLAY s) (JsString s)
  end.

(* ====================================================================== *)
(** ** lib/types.ts: entries and inputs *)
(* ====================================================================== *)

Inductive DocumentType : Type := addendum | dev_log.

Definition DocumentType_eqb (a b : DocumentType) : bool :=
  match a, b with
  | addendum, addendum | dev_log, dev_log => true
  | _, _ => false
  end.

(** A row of the table [entries]; [None] in a nullable column is NULL. *)
Record Entry : Type := mkEntry {
  id : Z;
  project : jsstring;
  document_type : DocumentType;
  entry_date : jsstring;
  entry_number : Z;
  title : jsstring;
  entry_type : option jsstring;
  status : option jsstring;
  summary : option jsstring;
  details : option jsstring;
  narrative_signal : option jsstring;
  next_steps : option jsstring;
  is_deleted : Z;
  created_at : jsstring;
  updated_at : jsstring
}.

(** [None] in an optional field is [undefined]. *)
Module CreateEntryInput.
Record t : Type := mk {
  project : jsstring;
  document_type : DocumentType;
  entry_date : jsstring;
  title : jsstring;
  entry_type : option jsstring;
  status : option jsstring;
  summary : option jsstring;
  details : option jsstring;
  narrative_signal : option jsstring;
  next_steps : option jsstring
}.
End CreateEntryInput.

Module UpdateEntryInput.
Record t : Type := mk {
  entry_date : option jsstring;
  title : option jsstring;
  entry_type : option jsstring;
  status : option jsstring;
  summary : option jsstring;
  details : option jsstring;
  narrative_signal : option jsstring;
  next_steps : option jsstring
}.
End UpdateEntryInput.

Module Filters.
Record t : Type := mk {
  project : option jsstring;
  document_type : option DocumentType;
  after : option jsstring;
  before : option jsstring;
  q : option jsstring;
  limit : option Z;
  offset : option Z;
  includeDeleted : option bool
}.
End Filters.

Record ListResult : Type := mkListResult {
  entries : list Entry;
  total : Z
}.

(* ====================================================================== *)
(** ** The database: one table, its constraints, failing statements *)
(* ====================================================================== *)

Inductive DbError : Type :=
| UndefinedTable      (* relation "entries" does not exist *)
| UniqueViolation     (* PRIMARY KEY or UNIQUE(project, document_type, entry_date, entry_number) *)
| NegativeLimit       (* LIMIT must not be negative *)
| NegativeOffset.     (* OFFSET must not be negative *)

Inductive outcome (A : Type) : Type :=
| Ok (a : A)
| Throw (e : DbError).

Arguments Ok {A} a.
Arguments Throw {A} e.

Definition bind {A B : Type} (m : outcome A) (k : A -> outcome B) : outcome B :=
  match m with
  | Ok a => k a
  | Throw e => Throw e
  end.

Notation "x <- m ;; k" := (bind m (fun x => k))
  (at level 61, m at next level, right associativity).

(** Rows in insertion order, and the last identifier handed out by
    AUTOINCREMENT / SERIAL. *)
Record Table : Type := mkTable {
  rows : list Entry;
  last_id : Z
}.

(** [None]: the schema has not been created yet. *)
Definition Db : Type := option Table.

Definition empty_table : Table := {| rows := []; last_id := 0 |}.

(** [CREATE TABLE IF NOT EXISTS entries (...)] and its indexes. *)
Definition create_table_if_not_exists (db : Db) : Table :=
  match db with
  | Some t => t
  | None => empty_table
  end.

(** [UNIQUE(project, document_type, entry_date, entry_number)]. *)
Definition same_key (a b : Entry) : bool :=
  jsstring_eqb (project a) (project b)
  && DocumentType_eqb (document_type a) (document_type b)
  && jsstring_eqb (entry_date a) (entry_date b)
  && (entry_number a =? entry_number b).

Definition key_count (r : Entry) (l : list Entry) : nat :=
  length (filter (same_key r) l).

(** [INSERT INTO entries (...) VALUES (...)] of a complete row. *)
Definition sql_insert (r : Entry) (t : Table) : outcome Table :=
  if existsb (fun x => id x =? id r) (rows t) then Throw UniqueViolation
  else if existsb (same_key r) (rows t) then Throw UniqueViolation
  else Ok {| rows := rows t ++ [r]; last_id := id r |}.

(** The SET list of an UPDATE, with the bound values. *)
Inductive Assignment : Type :=
| SetEntryDate (v : jsstring)
| SetEntryNumber (n : Z)
| SetTitle (v : jsstring)
| SetEntryType (v : option jsstring)
| SetStatus (v : option jsstring)
| SetSummary (v : option jsstring)
| SetDetails (v : option jsstring)
| SetNarrativeSignal (v : option jsstring)
| SetNextSteps (v : option jsstring)
| SetIsDeleted (n : Z)
| SetUpdatedAt (now : jsstring).

Definition assign (a : Assignment) (r : Entry) : Entry :=
  match a with
  | SetEntryDate v =>
      mkEntry (id r) (project r) (document_type r) v (entry_number r) (title r)
        (entry_type r) (status r) (summary r) (details r) (narrative_signal r)
        (next_steps r) (is_deleted r) (created_at r) (updated_at r)
  | SetEntryNumber n =>
      mkEntry (id r) (project r) (document_type r) (entry_date r) n (title r)
        (entry_type r) (status r) (summary r) (details r) (narrative_signal r)
        (next_steps r) (is_deleted r) (created_at r) (updated_at r)
  | SetTitle v =>
      mkEntry (id r) (project r) (document_type r) (entry_date r) (entry_number r) v
        (entry_type r) (status r) (summary r) (details r) (narrative_signal r)
        (next_steps r) (is_deleted r) (created_at r) (updated_at r)
  | SetEntryType v =>
      mkEntry (id r) (project r) (document_type r) (entry_date r) (entry_number r) (title r)
        v (status r) (summary r) (details r) (narrative_signal r)
        (next_steps r) (is_deleted r) (created_at r) (updated_at r)
  | SetStatus v =>
      mkEntry (id r) (project r) (document_type r) (entry_date r) (entry_number r) (title r)
        (entry_type r) v (summary r) (details r) (narrative_signal r)
        (next_steps r) (is_deleted r) (created_at r) (updated_at r)
  | SetSummary v =>
      mkEntry (id r) (project r) (document_type r) (entry_date r) (entry_number r) (title r)
        (entry_type r) (status r) v (details r) (narrative_signal r)
        (next_steps r) (is_deleted r) (created_at r) (updated_at r)
  | SetDetails v =>
      mkEntry (id r) (project r) (document_type r) (entry_date r) (entry_number r) (title r)
        (entry_type r) (status r) (summary r) v (narrative_signal r)
        (next_steps r) (is_deleted r) (created_at r) (updated_at r)
  | SetNarrativeSignal v =>
      mkEntry (id r) (project r) (document_type r) (entry_date r) (entry_number r) (title r)
        (entry_type r) (status r) (summary r) (details r) v
        (next_steps r) (is_deleted r) (created_at r) (updated_at r)
  | SetNextSteps v =>
      mkEntry (id r) (project r) (document_type r) (entry_date r) (entry_number r) (title r)
        (entry_type r) (status r) (summary r) (details r) (narrative_signal r)
        v (is_deleted r) (created_at r) (updated_at r)
  | SetIsDeleted n =>
      mkEntry (id r) (project r) (document_type r) (entry_date r) (entry_number r) (title r)
        (entry_type r) (status r) (summary r) (details r) (narrative_signal r)
        (next_steps r) n (created_at r) (updated_at r)
  | SetUpdatedAt now =>
      mkEntry (id r) (project r) (document_type r) (entry_date r) (entry_number r) (title r)
        (entry_type r) (status r) (summary r) (details r) (narrative_signal r)
        (next_steps r) (is_deleted r) (created_at r) now
  end.

Definition assign_all (sets : list Assignment) (r : Entry) : Entry :=
  fold_left (fun r a => assign a r) sets r.

(** [UPDATE entries SET ... WHERE id = ?].  The statement fails when a row
    it writes would share its key with another row. *)
Definition sql_update (sets : list Assignment) (target : Z) (t : Table)
  : outcome Table :=
  let rows' := map (fun r => if id r =? target then assign_all sets r else r) (rows t) in
  if existsb (fun r => (id r =? target) && (1 <? key_count r rows')%nat) rows'
  then Throw UniqueViolation
  else Ok {| rows := rows'; last_id := last_id t |}.

(** [DELETE FROM entries WHERE id = ?]. *)
Definition sql_delete (target : Z) (t : Table) : Table :=
  {| rows := filter (fun r => negb (id r =? target)) (rows t);
     last_id := last_id t |}.

(** The number of rows a statement with [WHERE id = ?] touches. *)
Definition changes (target : Z) (t : Table) : Z :=
  Z.of_nat (length (filter (fun r => id r =? target) (rows t))).

(** [SELECT MAX(entry_number) ...]: NULL on no rows. *)
Definition sql_max (l : list Z) : option Z :=
  match l with
  | [] => None
  | x :: l' => Some (fold_left Z.max l' x)
  end.

(** [n || d] on a number that may be [null]/[undefined]: 0 is falsy. *)
Definition num_or (n : option Z) (d : Z) : Z :=
  match n with
  | Some v => if v =? 0 then d else v
  | None => d
  end.

(** [s || null] and the test [if (s)] on an optional string: the empty
    string is falsy. *)
Definition str_or_null (s : option jsstring) : option jsstring :=
  match s with
  | Some (_ :: _) => s
  | _ => None
  end.

(* ====================================================================== *)
(** ** WHERE conditions, LIKE, ORDER BY, LIMIT *)
(* ====================================================================== *)

(** Comparison of TEXT values, code unit by code unit.  Both engines are
    given this order (it is the order of dates written YYYY-MM-DD); the
    collation a Postgres database is created with is not modelled. *)
Fixpoint str_compare (a b : jsstring) : comparison :=
  match a, b with
  | [], [] => Eq
  | [], _ :: _ => Lt
  | _ :: _, [] => Gt
  | x :: a', y :: b' =>
      match x ?= y with
      | Eq => str_compare a' b'
      | c => c
      end
  end.

Definition str_leb (a b : jsstring) : bool :=
  match str_compare a b with
  | Gt => false
  | _ => true
  end.

(** A LIKE pattern, read: [%] is any run, [_] any one character. *)
Inductive LikeToken : Type :=
| AnyRun
| AnyOne
| Lit (c : Z).

Definition percent : Z := 37.
Definition underscore : Z := 95.
Definition backslash : Z := 92.

(** SQLite reads a pattern without an escape character. *)
Definition sqlite_like_tokens (pattern : jsstring) : list LikeToken :=
  map (fun c => if c =? percent then AnyRun
                else if c =? underscore then AnyOne else Lit c) pattern.

(** PostgreSQL reads a backslash as the escape character: the character
    after it stands for itself.  (The patterns built below end in [%], so
    none ends in a lone backslash.) *)
Fixpoint pg_like_tokens (pattern : jsstring) : list LikeToken :=
  match pattern with
  | [] => []
  | c :: p' =>
      if c =? backslash then
        match p' with
        | [] => [Lit c]
        | d :: p'' => Lit d :: pg_like_tokens p''
        end
      else (if c =? percent then AnyRun
            else if c =? underscore then AnyOne else Lit c) :: pg_like_tokens p'
  end.

(** Matching without regard to the case of Basic Latin letters: this is
    [LIKE ... COLLATE NOCASE] of SQLite.  [ILIKE] is given the same
    folding; what it does to letters outside Basic Latin depends on the
    locale of the database and is not modelled. *)
Fixpoint like_match (toks : list LikeToken) (s : jsstring) : bool :=
  match toks with
  | [] => match s with [] => true | _ :: _ => false end
  | AnyRun :: toks' =>
      (fix skip (s : jsstring) : bool :=
         like_match toks' s
         || match s with [] => false | _ :: s' => skip s' end) s
  | AnyOne :: toks' =>
      match s with [] => false | _ :: s' => like_match toks' s' end
  | Lit c :: toks' =>
      match s with
      | [] => false
      | d :: s' => (lower_unit c =? lower_unit d) && like_match toks' s'
      end
  end.

(** [column LIKE ?] on a nullable column: NULL never matches. *)
Definition like_column (toks : list LikeToken) (v : option jsstring) : bool :=
  match v with
  | Some s => like_match toks s
  | None => false
  end.

(** [(title LIKE ? OR summary LIKE ? OR details LIKE ? OR next_steps LIKE ?)] *)
Definition like_any_column (toks : list LikeToken) (r : Entry) : bool :=
  like_match toks (title r)
  || like_column toks (summary r)
  || like_column toks (details r)
  || like_column toks (next_steps r).

(** The strings pushed on [conditions], with their bound parameters. *)
Inductive Condition : Type :=
| IsDeletedZero                        (* is_deleted = 0 *)
| ProjectEq (p : jsstring)             (* project = ? *)
| DocumentTypeEq (d : DocumentType)    (* document_type = ? *)
| EntryDateGe (a : jsstring)           (* entry_date >= ? *)
| EntryDateLe (b : jsstring)           (* entry_date <= ? *)
| LikeNocase (pattern : jsstring)      (* ... LIKE ? COLLATE NOCASE OR ... *)
| ILike (pattern : jsstring).          (* ... ILIKE $n OR ... *)

Definition holds (c : Condition) (r : Entry) : bool :=
  match c with
  | IsDeletedZero => is_deleted r =? 0
  | ProjectEq p => jsstring_eqb (project r) p
  | DocumentTypeEq d => DocumentType_eqb (document_type r) d
  | EntryDateGe a => str_leb a (entry_date r)
  | EntryDateLe b => str_leb (entry_date r) b
  | LikeNocase pattern => like_any_column (sqlite_like_tokens pattern) r
  | ILike pattern => like_any_column (pg_like_tokens pattern) r
  end.

(** [WHERE c1 AND c2 AND ...]; no condition, no WHERE clause. *)
Definition where_all (conditions : list Condition) (r : Entry) : bool :=
  forallb (fun c => holds c r) conditions.

Definition select_where (conditions : list Condition) (t : Table) : list Entry :=
  filter (where_all conditions) (rows t).

(** [ORDER BY entry_date DESC, entry_number DESC]: [browse_leb a b] when
    [a] may come before [b]. *)
Definition browse_leb (a b : Entry) : bool :=
  match str_compare (entry_date b) (entry_date a) with
  | Lt => true
  | Eq => entry_number b <=? entry_number a
  | Gt => false
  end.

Fixpoint browse_insert (x : Entry) (l : list Entry) : list Entry :=
  match l with
  | [] => [x]
  | y :: l' => if browse_leb x y then x :: l else y :: browse_insert x l'
  end.

(** Rows that tie on both keys stay in table order: SQL leaves their
    order open, and the statements below only rely on the result being
    sorted and a permutation of the rows selected. *)
Definition order_by_browse (l : list Entry) : list Entry :=
  fold_right browse_insert [] l.

(** [LIMIT ? OFFSET ?] in SQLite: a negative limit is no limit, a negative
    offset is no offset. *)
Definition sqlite_limit_offset (limit offset : Z) (l : list Entry) : list Entry :=
  let l' := skipn (Z.to_nat offset) l in
  if limit <? 0 then l' else firstn (Z.to_nat limit) l'.

(** [LIMIT $n OFFSET $m] in PostgreSQL: a negative value is an error. *)
Definition postgres_limit_offset (limit offset : Z) (l : list Entry)
  : outcome (list Entry) :=
  if offset <? 0 then Throw NegativeOffset
  else if limit <? 0 then Throw NegativeLimit
  else Ok (firstn (Z.to_nat limit) (skipn (Z.to_nat offset) l)).

(** [filters.q.trim().split(/\s+/).filter(t => t.length > 0)] *)
Definition search_terms (q : jsstring) : list jsstring :=
  filter (fun t => (0 <? List.length t)%nat) (split_ws (trim q)).

(** [`%${term}%`] *)
Definition likeTerm (term : jsstring) : jsstring :=
  [percent] ++ term ++ [percent].

(** [!filters.includeDeleted] *)
Definition not_includeDeleted (filters : Filters.t) : bool :=
  match Filters.includeDeleted filters with
  | Some true => false
  | _ => true
  end.

Definition sqliteConditions (filters : Filters.t) : list Condition :=
  (if not_includeDeleted filters then [IsDeletedZero] else [])
  ++ match str_or_null (Filters.project filters) with
     | Some p => [ProjectEq p] | None => [] end
  ++ match Filters.document_type filters with
     | Some d => [DocumentTypeEq d] | None => [] end
  ++ match str_or_null (Filters.after filters) with
     | Some a => [EntryDateGe a] | None => [] end
  ++ match str_or_null (Filters.before filters) with
     | Some b => [EntryDateLe b] | None => [] end
  ++ match str_or_null (Filters.q filters) with
     | Some q => map (fun term => LikeNocase (likeTerm term)) (search_terms q)
     | None => []
     end.

Definition postgresConditions (filters : Filters.t) : list Condition :=
  (if not_includeDeleted filters then [IsDeletedZero] else [])
  ++ match str_or_null (Filters.project filters) with
     | Some p => [ProjectEq p] | None => [] end
  ++ match Filters.document_type filters with
     | Some d => [DocumentTypeEq d] | None => [] end
  ++ match str_or_null (Filters.after filters) with
     | Some a => [EntryDateGe a] | None => [] end
  ++ match str_or_null (Filters.before filters) with
     | Some b => [EntryDateLe b] | None => [] end
  ++ match str_or_null (Filters.q filters) with
     | Some q => map (fun term => ILike (likeTerm term)) (search_terms q)
     | None => []
     end.

(** [Math.min(filters.limit || 50, 200)] and [filters.offset || 0] *)
Definition page_limit (filters : Filters.t) : Z :=
  Z.min (num_or (Filters.limit filters) 50) 200.

Definition page_offset (filters : Filters.t) : Z :=
  num_or (Filters.offset filters) 0.

(* ====================================================================== *)
(** ** lib/db.ts: the SQLite implementation *)
(* ====================================================================== *)

(** Opening the database file creates the schema when it is missing. *)
Definition getSqliteDb (db : Db) : Table := create_table_if_not_exists db.

Definition sqliteListEntries (filters : Filters.t) (db : Db)
  : outcome (Db * ListResult) :=
  let t := getSqliteDb db in
  let conditions := sqliteConditions filters in
  let limit := page_limit filters in
  let offset := page_offset filters in
  let count := Z.of_nat (List.length (select_where conditions t)) in
  let entries :=
    sqlite_limit_offset limit offset
      (order_by_browse (select_where conditions t)) in
  Ok (Some t, {| entries := entries; total := count |}).

(** [SELECT * FROM entries WHERE id = ?], first row or [null]. *)
Definition select_by_id (target : Z) (t : Table) : option Entry :=
  find (fun r => id r =? target) (rows t).

Definition sqliteGetEntry (target : Z) (db : Db) : outcome (Db * option Entry) :=
  let t := getSqliteDb db in
  Ok (Some t, select_by_id target t).

(** [SELECT MAX(entry_number) FROM entries WHERE project = ? AND
    document_type = ? AND entry_date = ?] *)
Definition in_group (p : jsstring) (d : DocumentType) (date : jsstring)
  (r : Entry) : bool :=
  jsstring_eqb (project r) p
  && DocumentType_eqb (document_type r) d
  && jsstring_eqb (entry_date r) date.

Definition max_in_group (p : jsstring) (d : DocumentType) (date : jsstring)
  (t : Table) : option Z :=
  sql_max (map entry_number (filter (in_group p d date) (rows t))).

(** The same with [AND id != ?]. *)
Definition max_in_group_except (p : jsstring) (d : DocumentType) (date : jsstring)
  (self : Z) (t : Table) : option Z :=
  sql_max (map entry_number
             (filter (fun r => in_group p d date r && negb (id r =? self)) (rows t))).

(** The row an INSERT of [input] builds: the columns it names, and the
    defaults of the others. *)
Definition new_row (now : jsstring) (input : CreateEntryInput.t)
  (entryNumber : Z) (t : Table) : Entry :=
  {| id := last_id t + 1;
     project := CreateEntryInput.project input;
     document_type := CreateEntryInput.document_type input;
     entry_date := CreateEntryInput.entry_date input;
     entry_number := entryNumber;
     title := CreateEntryInput.title input;
     entry_type := str_or_null (CreateEntryInput.entry_type input);
     status := str_or_null (CreateEntryInput.status input);
     summary := str_or_null (CreateEntryInput.summary input);
     details := str_or_null (CreateEntryInput.details input);
     narrative_signal := str_or_null (CreateEntryInput.narrative_signal input);
     next_steps := str_or_null (CreateEntryInput.next_steps input);
     is_deleted := 0;
     created_at := now;
     updated_at := now |}.

Definition sqliteCreateEntry (now : jsstring) (input : CreateEntryInput.t) (db : Db)
  : outcome (Db * Entry) :=
  let t := getSqliteDb db in
  let max_num :=
    max_in_group (CreateEntryInput.project input)
      (CreateEntryInput.document_type input)
      (CreateEntryInput.entry_date input) t in
  let entryNumber := num_or max_num 0 + 1 in
  let row := new_row now input entryNumber t in
  t' <- sql_insert row t ;;
  let lastInsertRowid := id row in
  (* the non-null assertion: the row just inserted is there *)
  match select_by_id lastInsertRowid t' with
  | Some e => Ok (Some t', e)
  | None => Ok (Some t', row)
  end.

Definition set_if {A : Type} (v : option A) (f : A -> Assignment) : list Assignment :=
  match v with
  | Some x => [f x]
  | None => []
  end.

Definition sqliteUpdateEntry (now : jsstring) (target : Z)
  (input : UpdateEntryInput.t) (db : Db) : outcome (Db * option Entry) :=
  let t := getSqliteDb db in
  match select_by_id target t with
  | None => Ok (Some t, None)
  | Some existing =>
      let updates :=
        [SetUpdatedAt now]
        ++ match UpdateEntryInput.entry_date input with
           | Some date =>
               if jsstring_eqb date (entry_date existing) then []
               else
                 let max_num :=
                   max_in_group_except (project existing) (document_type existing)
                     date target t in
                 let newEntryNumber := num_or max_num 0 + 1 in
                 [SetEntryDate date; SetEntryNumber newEntryNumber]
           | None => []
           end
        ++ set_if (UpdateEntryInput.title input) SetTitle
        ++ set_if (UpdateEntryInput.entry_type input) (fun v => SetEntryType (Some v))
        ++ set_if (UpdateEntryInput.status input) (fun v => SetStatus (Some v))
        ++ set_if (UpdateEntryInput.summary input) (fun v => SetSummary (Some v))
        ++ set_if (UpdateEntryInput.details input) (fun v => SetDetails (Some v))
        ++ set_if (UpdateEntryInput.narrative_signal input)
             (fun v => SetNarrativeSignal (Some v))
        ++ set_if (UpdateEntryInput.next_steps input) (fun v => SetNextSteps (Some v)) in
      t' <- sql_update updates target t ;;
      Ok (Some t', select_by_id target t')
  end.

Definition sqliteDeleteEntry (now : jsstring) (target : Z) (hard : bool) (db : Db)
  : outcome (Db * bool) :=
  let t := getSqliteDb db in
  if hard then
    Ok (Some (sql_delete target t), 0 <? changes target t)
  else
    t' <- sql_update [SetIsDeleted 1; SetUpdatedAt now] target t ;;
    Ok (Some t', 0 <? changes target t).

(* ====================================================================== *)
(** ** lib/db.ts: the Postgres implementation *)
(* ====================================================================== *)

Definition postgresInitSchema (db : Db) : outcome (Db * unit) :=
  Ok (Some (create_table_if_not_exists db), tt).

(** Every statement needs the relation to exist. *)
Definition relation (db : Db) : outcome Table :=
  match db with
  | Some t => Ok t
  | None => Throw UndefinedTable
  end.

Definition postgresListEntries (filters : Filters.t) (db : Db)
  : outcome (Db * ListResult) :=
  let conditions := postgresConditions filters in
  let limit := page_limit filters in
  let offset := page_offset filters in
  t <- relation db ;;
  let total := Z.of_nat (List.length (select_where conditions t)) in
  entriesResult <-
    postgres_limit_offset limit offset
      (order_by_browse (select_where conditions t)) ;;
  Ok (Some t, {| entries := entriesResult; total := total |}).

Definition postgresGetEntry (target : Z) (db : Db) : outcome (Db * option Entry) :=
  t <- relation db ;;
  Ok (Some t, select_by_id target t).

Definition postgresCreateEntry (now : jsstring) (input : CreateEntryInput.t) (db : Db)
  : outcome (Db * Entry) :=
  t <- relation db ;;
  let max_num :=
    max_in_group (CreateEntryInput.project input)
      (CreateEntryInput.document_type input)
      (CreateEntryInput.entry_date input) t in
  let entryNumber := num_or max_num 0 + 1 in
  let row := new_row now input entryNumber t in
  t' <- sql_insert row t ;;
  (* RETURNING * *)
  Ok (Some t', row).

(** [input.x !== undefined ? input.x : existing.x] *)
Definition provided_or {A : Type} (v : option A) (existing : A) : A :=
  match v with
  | Some x => x
  | None => existing
  end.

Definition provided_or_null (v : option jsstring) (existing : option jsstring)
  : option jsstring :=
  match v with
  | Some x => Some x
  | None => existing
  end.

Definition postgresUpdateEntry (now : jsstring) (target : Z)
  (input : UpdateEntryInput.t) (db : Db) : outcome (Db * option Entry) :=
  t <- relation db ;;
  match select_by_id target t with
  | None => Ok (Some t, None)
  | Some existing =>
      let '(newEntryDate, newEntryNumber) :=
        match UpdateEntryInput.entry_date input with
        | Some date =>
            if jsstring_eqb date (entry_date existing)
            then (entry_date existing, entry_number existing)
            else
              let max_num :=
                max_in_group_except (project existing) (document_type existing)
                  date target t in
              (date, num_or max_num 0 + 1)
        | None => (entry_date existing, entry_number existing)
        end in
      t' <- sql_update
              [ SetEntryDate newEntryDate;
                SetEntryNumber newEntryNumber;
                SetTitle (provided_or (UpdateEntryInput.title input) (title existing));
                SetEntryType (provided_or_null (UpdateEntryInput.entry_type input)
                                (entry_type existing));
                SetStatus (provided_or_null (UpdateEntryInput.status input)
                             (status existing));
                SetSummary (provided_or_null (UpdateEntryInput.summary input)
                              (summary existing));
                SetDetails (provided_or_null (UpdateEntryInput.details input)
                              (details existing));
                SetNarrativeSignal (provided_or_null (UpdateEntryInput.narrative_signal input)
                                      (narrative_signal existing));
                SetNextSteps (provided_or_null (UpdateEntryInput.next_steps input)
                                (next_steps existing));
                SetUpdatedAt now ]
              target t ;;
      (* RETURNING *, first row or null *)
      Ok (Some t', select_by_id target t')
  end.

Definition postgresDeleteEntry (now : jsstring) (target : Z) (hard : bool) (db : Db)
  : outcome (Db * bool) :=
  t <- relation db ;;
  if hard then
    Ok (Some (sql_delete target t), 0 <? changes target t)
  else
    t' <- sql_update [SetIsDeleted 1; SetUpdatedAt now] target t ;;
    Ok (Some t', 0 <? changes target t).

(* ====================================================================== *)
(** ** lib/db.ts: the unified API *)
(* ====================================================================== *)

Definition initSchema (usePostgres : bool) (db : Db) : outcome (Db * unit) :=
  if usePostgres then postgresInitSchema db
  else Ok (Some (getSqliteDb db), tt).

Definition listEntries (usePostgres : bool) (filters : Filters.t) (db : Db)
  : outcome (Db * ListResult) :=
  if usePostgres then postgresListEntries filters db
  else sqliteListEntries filters db.

Definition getEntry (usePostgres : bool) (target : Z) (db : Db)
  : outcome (Db * option Entry) :=
  if usePostgres then postgresGetEntry target db
  else sqliteGetEntry target db.

Definition createEntry (usePostgres : bool) (now : jsstring)
  (input : CreateEntryInput.t) (db : Db) : outcome (Db * Entry) :=
  if usePostgres then postgresCreateEntry now input db
  else sqliteCreateEntry now input db.

Definition updateEntry (usePostgres : bool) (now : jsstring) (target : Z)
  (input : UpdateEntryInput.t) (db : Db) : outcome (Db * option Entry) :=
  if usePostgres then postgresUpdateEntry now target input db
  else sqliteUpdateEntry now target input db.

Definition deleteEntry (usePostgres : bool) (now : jsstring) (target : Z)
  (hard : bool) (db : Db) : outcome (Db * bool) :=
  if usePostgres then postgresDeleteEntry now target hard db
  else sqliteDeleteEntry now target hard db.

(* ====================================================================== *)
(** ** Vocabulary of the statements *)
(* ====================================================================== *)


(** PRIMARY KEY, the sequence behind it, and the UNIQUE constraint. *)
Definition wf (t : Table) : Prop :=
  NoDup (map id (rows t))
  /\ (forall r, In r (rows t) -> id r <= last_id t)
  /\ (forall r, In r (rows t) -> key_count r (rows t) = 1%nat).

Fixpoint distinct (l : list Z) : bool :=
  match l with
  | [] => true
  | x :: l' => negb (existsb (Z.eqb x) l') && distinct l'
  end.

(** A decision procedure for [wf], for concrete tables. *)
Definition wfb (t : Table) : bool :=
  distinct (map id (rows t))
  && forallb (fun r => id r <=? last_id t) (rows t)
  && forallb (fun r => (key_count r (rows t) =? 1)%nat) (rows t).








(** The table after the row with the identifier of [e'] became [e']. *)
Definition replace_row (e' : Entry) (t : Table) : Table :=
  {| rows := map (fun r => if id r =? id e' then e' else r) (rows t);
     last_id := last_id t |}.



(** The row that a soft delete leaves for [existing]. *)
Definition soft_deleted_row (now : jsstring) (existing : Entry) : Entry :=
  mkEntry (id existing) (project existing) (document_type existing)
    (entry_date existing) (entry_number existing) (title existing)
    (entry_type existing) (status existing) (summary existing) (details existing)
    (narrative_signal existing) (next_steps existing) 1 (created_at existing) now.

(** The condition list of the backend in use. *)
Definition conditions (usePostgres : bool) (filters : Filters.t) : list Condition :=
  if usePostgres then postgresConditions filters else sqliteConditions filters.

(** The rows of [t] that pass the conditions of [filters], in listing order. *)
Definition matching (usePostgres : bool) (filters : Filters.t) (t : Table)
  : list Entry :=
  order_by_browse (select_where (conditions usePostgres filters) t).

(** The window [offset, offset + limit) of a list. *)
Definition page (limit offset : Z) (l : list Entry) : list Entry :=
  firstn (Z.to_nat limit) (skipn (Z.to_nat offset) l).











(* ====================================================================== *)
(** ** The store contract as calls and results *)
(* ====================================================================== *)

Inductive Call : Type :=
| CallInitSchema
| CallListEntries (filters : Filters.t)
| CallGetEntry (target : Z)
| CallCreateEntry (now : jsstring) (input : CreateEntryInput.t)
| CallUpdateEntry (now : jsstring) (target : Z) (input : UpdateEntryInput.t)
| CallDeleteEntry (now : jsstring) (target : Z) (hard : bool).

Inductive Returned : Type :=
| RetVoid
| RetList (r : ListResult)
| RetEntry (e : option Entry)
| RetCreated (e : Entry)
| RetBool (b : bool).

(** What a caller of the unified API observes: the value returned or the
    error raised, and the store left behind. *)
Definition call (usePostgres : bool) (c : Call) (db : Db) : outcome (Db * Returned) :=
  match c with
  | CallInitSchema =>
      r <- initSchema usePostgres db ;; Ok (fst r, RetVoid)
  | CallListEntries filters =>
      r <- listEntries usePostgres filters db ;; Ok (fst r, RetList (snd r))
  | CallGetEntry target =>
      r <- getEntry usePostgres target db ;; Ok (fst r, RetEntry (snd r))
  | CallCreateEntry now input =>
      r <- createEntry usePostgres now input db ;; Ok (fst r, RetCreated (snd r))
  | CallUpdateEntry now target input =>
      r <- updateEntry usePostgres now target input db ;; Ok (fst r, RetEntry (snd r))
  | CallDeleteEntry now target hard =>
      r <- deleteEntry usePostgres now target hard db ;; Ok (fst r, RetBool (snd r))
  end.



(* ====================================================================== *)
(** ** Sample inputs and stores *)
(* ====================================================================== *)



(** A row as [createEntry] leaves it. *)
Definition sample_row (i : Z) (p date : string) (n : Z) (ttl : string) : Entry :=
  mkEntry i (js p) addendum (js date) n (js ttl)
    None None None None None None 0 (js "2025-01-01 00:00:00") (js "2025-01-01 00:00:00").

(** Two entries of one project on two days, and one of another project. *)
Definition sample_table : Table :=
  {| rows := [ sample_row 1 "p" "2025-01-01" 1 "first";
               sample_row 2 "p" "2025-01-02" 1 "second";
               sample_row 3 "p" "2025-01-02" 2 "third";
               sample_row 4 "other" "2025-01-02" 1 "fourth" ];
     last_id := 4 |}.














(** A filter record with every falsy field dropped: an empty string, a
    [q] without a term, a limit or offset of 0, [includeDeleted: false]. *)
Definition drop_falsy (f : Filters.t) : Filters.t :=
  Filters.mk
    (str_or_null (Filters.project f))
    (Filters.document_type f)
    (str_or_null (Filters.after f))
    (str_or_null (Filters.before f))
    (match Filters.q f with
     | Some q => match search_terms q with [] => None | _ :: _ => Some q end
     | None => None
     end)
    (match Filters.limit f with Some 0 => None | l => l end)
    (match Filters.offset f with Some 0 => None | o => o end)
    (match Filters.includeDeleted f with Some true => Some true | _ => None end).



(* ====================================================================== *)
(** ** lib/auth.ts: the API key *)
(* ====================================================================== *)

Definition space : Z := 32.

(** [s.split(sep)] for a separator of one code unit: the pieces between
    the occurrences of [sep], the empty ones included. *)
Fixpoint split (sep : Z) (s : jsstring) : list jsstring :=
  match s with
  | [] => [[]]
  | c :: s' =>
      if c =? sep then [] :: split sep s'
      else match split sep s' with
           | piece :: pieces => (c :: piece) :: pieces
           | [] => [[c]]
           end
  end.

(** What a handler sees of a request: the [Authorization] header
    ([None] when the request has none) and the decoded query parameters
    in the order of the URL. *)
Record Request : Type := mkRequest {
  authorization : option jsstring;
  query : list (jsstring * jsstring)
}.

(** [searchParams.get(name)]: the first value under [name], or [null]. *)
Definition searchParams_get (name : string) (request : Request)
  : option jsstring :=
  match find (fun p => jsstring_eqb (fst p) (js name)) (query request) with
  | Some p => Some (snd p)
  | None => None
  end.

(** The body of a JSON response.  [None] in a number is the [null] that
    [JSON.stringify] writes for [NaN] and for an infinity. *)
Inductive Body : Type :=
| ErrorBody (error : jsstring)
| ListBody (found : list Entry) (count : Z) (page_no pages per_page : option Z)
| EntryBody (entry : Entry)
| SuccessBody.

Record Response : Type := mkResponse {
  status_code : Z;
  body : Body
}.

(** [NextResponse.json({ error }, { status })] and [NextResponse.json(x)] *)
Definition error_response (code : Z) (message : string) : Response :=
  {| status_code := code; body := ErrorBody (js message) |}.

Definition json_response (b : Body) : Response :=
  {| status_code := 200; body := b |}.

Inductive AuthResult : Type :=
| Authenticated
| Rejected (response : Response).

(** The token of an [Authorization: Bearer <token>] header. *)
Definition header_token (authHeader : option jsstring) : option jsstring :=
  match str_or_null authHeader with
  | Some h =>
      match split space h with
      | [scheme; credentials] =>
          if jsstring_eqb scheme (js "Bearer") then Some credentials else None
      | _ => None
      end
  | None => None
  end.

(** [apiKey] is [process.env.API_KEY], [None] when the variable is unset. *)
Definition verifyAuth (apiKey : option jsstring) (request : Request) : AuthResult :=
  match str_or_null apiKey with
  | None => Rejected (error_response 500 "Server configuration error")
  | Some key =>
      let token := header_token (authorization request) in
      let token :=
        match str_or_null token with
        | Some _ => token
        | None => searchParams_get "token" request
        end in
      match str_or_null token with
      | None =>
          Rejected (error_response 401
            "Missing authentication. Provide Authorization header or token parameter.")
      | Some tok =>
          if jsstring_eqb tok key then Authenticated
          else Rejected (error_response 401 "Invalid API key")
      end
  end.

(* ====================================================================== *)
(** ** app/api/entries: the routes that read, list and delete *)
(* ====================================================================== *)

Definition is_digit (c : Z) : bool := (48 <=? c) && (c <=? 57).

Fixpoint leading_digits (s : jsstring) : jsstring :=
  match s with
  | c :: s' => if is_digit c then c :: leading_digits s' else []
  | [] => []
  end.

Definition decimal (digits : jsstring) : Z :=
  fold_left (fun n c => 10 * n + (c - 48)) digits 0.

(** [parseInt(s, 10)]: leading white space, an optional sign, then the
    longest run of decimal digits; [None] is [NaN].  The integer is kept
    exact: the rounding to a double beyond 2^53 is not modelled. *)
Definition parseInt (s : jsstring) : option Z :=
  let s := trimStart s in
  let '(sign, s) :=
    match s with
    | c :: s' => if c =? 45 then (-1, s') else if c =? 43 then (1, s') else (1, s)
    | [] => (1, s)
    end in
  match leading_digits s with
  | [] => None
  | digits => Some (sign * decimal digits)
  end.

(** The integers that a double holds exactly. *)
Definition safe_integer (n : Z) : Prop := - 2 ^ 53 < n < 2 ^ 53.

(** [param ? parseInt(param, 10) : dflt] *)
Definition number_param (param : option jsstring) (dflt : option Z) : option Z :=
  match str_or_null param with
  | Some s => parseInt s
  | None => dflt
  end.

(** [(page - 1) * limit], [NaN] when either is. *)
Definition page_start (page_no limit : option Z) : option Z :=
  match page_no, limit with
  | Some p, Some l => Some ((p - 1) * l)
  | _, _ => None
  end.

(** [Math.ceil(total / limit)] as it is written to the response: [null]
    for a limit that is [NaN] or 0 (the quotient is [NaN] or infinite). *)
Definition total_pages (count : Z) (limit : option Z) : option Z :=
  match limit with
  | Some l => if l =? 0 then None else Some (- ((- count) / l))
  | None => None
  end.

(** The [document_type] parameter is passed on as it is. *)
Inductive TypeParam : Type :=
| NoType
| KnownType (d : DocumentType)
| OtherType.

Definition type_param (param : option jsstring) : TypeParam :=
  match str_or_null param with
  | None => NoType
  | Some s =>
      if jsstring_eqb s (js "addendum") then KnownType addendum
      else if jsstring_eqb s (js "dev_log") then KnownType dev_log
      else OtherType
  end.

(** The filters the list route builds.  A [NaN] limit or offset is given
    as absent: [NaN || 50] and [NaN || 0] are what [undefined] gives. *)
Definition route_filters (request : Request) (d : option DocumentType)
  (limit offset : option Z) : Filters.t :=
  Filters.mk
    (str_or_null (searchParams_get "project" request))
    d
    (str_or_null (searchParams_get "after" request))
    (str_or_null (searchParams_get "before" request))
    (str_or_null (searchParams_get "q" request))
    limit offset None.

(** [listEntries] under the filters of the request.  A [document_type]
    that is neither name is compared with a column that the CHECK
    constraint keeps to the two names: the statements run, with their
    errors, and select no row. *)
Definition route_listing (usePostgres : bool) (request : Request)
  (limit offset : option Z) (db : Db) : outcome (Db * ListResult) :=
  match type_param (searchParams_get "document_type" request) with
  | NoType => listEntries usePostgres (route_filters request None limit offset) db
  | KnownType d =>
      listEntries usePostgres (route_filters request (Some d) limit offset) db
  | OtherType =>
      r <- listEntries usePostgres (route_filters request None limit offset) db ;;
      Ok (fst r, {| entries := []; total := 0 |})
  end.

(** [GET /api/entries].  A handler returns the database it leaves and its
    response; a statement that raised changed nothing. *)
Definition GET_entries (usePostgres : bool) (apiKey : option jsstring)
  (request : Request) (db : Db) : Db * Response :=
  match verifyAuth apiKey request with
  | Rejected response => (db, response)
  | Authenticated =>
      let limit := number_param (searchParams_get "limit" request) (Some 20) in
      let page_no := number_param (searchParams_get "page" request) (Some 1) in
      let offset :=
        number_param (searchParams_get "offset" request) (page_start page_no limit) in
      match route_listing usePostgres request limit offset db with
      | Ok (db', result) =>
          let totalPages := total_pages (total result) limit in
          (db', json_response
                  (ListBody (entries result) (total result) page_no totalPages limit))
      | Throw _ => (db, error_response 500 "Failed to list entries")
      end
  end.

(** [GET /api/entries/:id] *)
Definition GET_entry (usePostgres : bool) (apiKey : option jsstring)
  (request : Request) (id_param : jsstring) (db : Db) : Db * Response :=
  match verifyAuth apiKey request with
  | Rejected response => (db, response)
  | Authenticated =>
      match parseInt id_param with
      | None => (db, error_response 400 "Invalid entry ID")
      | Some entryId =>
          match getEntry usePostgres entryId db with
          | Ok (db', Some entry) => (db', json_response (EntryBody entry))
          | Ok (db', None) => (db', error_response 404 "Entry not found")
          | Throw _ => (db, error_response 500 "Failed to get entry")
          end
      end
  end.

(** [DELETE /api/entries/:id]: [deleteEntry(entryId)], a soft delete. *)
Definition DELETE_entry (usePostgres : bool) (apiKey : option jsstring)
  (now : jsstring) (request : Request) (id_param : jsstring) (db : Db)
  : Db * Response :=
  match verifyAuth apiKey request with
  | Rejected response => (db, response)
  | Authenticated =>
      match parseInt id_param with
      | None => (db, error_response 400 "Invalid entry ID")
      | Some entryId =>
          match deleteEntry usePostgres now entryId false db with
          | Ok (db', true) => (db', json_response SuccessBody)
          | Ok (db', false) => (db', error_response 404 "Entry not found")
          | Throw _ => (db, error_response 500 "Failed to delete entry")
          end
      end
  end.

(** [/^\d{4}-\d{2}-\d{2}$/.test(s)], the date check of the routes that
    write. *)
Definition date_format (s : jsstring) : bool :=
  match s with
  | [y1; y2; y3; y4; h1; m1; m2; h2; d1; d2] =>
      forallb is_digit [y1; y2; y3; y4; m1; m2; d1; d2]
      && (h1 =? 45) && (h2 =? 45)
  | _ => false
  end.

(** The day that a date of this form names, as the number yyyymmdd. *)
Definition day_number (s : jsstring) : Z :=
  decimal (filter is_digit s).

(* ====================================================================== *)
(** ** components/EntryList: grouping by date *)
(* ====================================================================== *)

(** A [Map<string, Entry[]>], its keys in insertion order. *)
Definition DateMap : Type := list (jsstring * list Entry).

Definition Map_get (groups : DateMap) (key : jsstring) : option (list Entry) :=
  match find (fun p => jsstring_eqb (fst p) key) groups with
  | Some p => Some (snd p)
  | None => None
  end.

(** [groups.set(key, value)]: a key already present keeps its place. *)
Fixpoint Map_set (groups : DateMap) (key : jsstring) (value : list Entry) : DateMap :=
  match groups with
  | [] => [(key, value)]
  | (k, v) :: rest =>
      if jsstring_eqb k key then (key, value) :: rest
      else (k, v) :: Map_set rest key value
  end.

Definition groupByDate (entries : list Entry) : DateMap :=
  fold_left
    (fun groups entry =>
       let existing :=
         match Map_get groups (entry_date entry) with
         | Some g => g
         | None => []
         end in
       Map_set groups (entry_date entry) (existing ++ [entry]))
    entries [].

(** Requests carrying the key in the header, and one without it. *)
Definition sample_key : jsstring := js "s3cret".

Definition bearer (token : jsstring) (params : list (jsstring * jsstring)) : Request :=
  {| authorization := Some (js "Bearer " ++ token); query := params |}.

Definition anonymous (params : list (jsstring * jsstring)) : Request :=
  {| authorization := None; query := params |}.

(** The header gives no token to compare: it is absent, not of the form
    [Bearer <token>], or its token is empty. *)
Definition no_header_token (request : Request) : Prop :=
  forall t, t <> [] -> ~ In space t ->
    authorization request <> Some (js "Bearer " ++ t).

(** The request carries [key], in the header or as the [token] parameter. *)
Definition presents (key : jsstring) (request : Request) : Prop :=
  authorization request = Some (js "Bearer " ++ key)
  \/ searchParams_get "token" request = Some key.

(** The entries of a list response, none for any other response. *)
Definition listed (r : Db * Response) : list Entry :=
  match body (snd r) with
  | ListBody found _ _ _ _ => found
  | _ => []
  end.

(** The stored entries that pass the filters of a list request, in
    listing order. *)
Definition route_matches (usePostgres : bool) (request : Request) (t : Table)
  : list Entry :=
  match type_param (searchParams_get "document_type" request) with
  | NoType => matching usePostgres (route_filters request None None None) t
  | KnownType d => matching usePostgres (route_filters request (Some d) None None) t
  | OtherType => []
  end.



(* ====================================================================== *)
(** ** app/api/entries: the routes that write *)
(* ====================================================================== *)












(* ====================================================================== *)
(** ** Facts about strings and keys *)
(* ====================================================================== *)

Lemma jsstring_eqb_eq : forall a b, jsstring_eqb a b = true <-> a = b.
Proof.
  induction a as [|x a IH]; destruct b as [|y b]; simpl; split; intros H;
    try reflexivity; try discriminate.
  - apply andb_true_iff in H. destruct H as [Hx Hab].
    apply Z.eqb_eq in Hx. apply IH in Hab. congruence.
  - inversion H; subst. rewrite Z.eqb_refl. simpl. apply IH. reflexivity.
Qed.

Lemma jsstring_eqb_refl : forall a, jsstring_eqb a a = true.
Proof. intros a. apply jsstring_eqb_eq. reflexivity. Qed.

Lemma jsstring_eqb_neq : forall a b, jsstring_eqb a b = false <-> a <> b.
Proof.
  intros a b. split.
  - intros H E. apply jsstring_eqb_eq in E. congruence.
  - intros H. destruct (jsstring_eqb a b) eqn:E; [|reflexivity].
    apply jsstring_eqb_eq in E. contradiction.
Qed.








Lemma browse_insert_perm : forall x l, Permutation (x :: l) (browse_insert x l).
Proof.
  induction l as [|y l IH]; simpl.
  - apply Permutation_refl.
  - destruct (browse_leb x y).
    + apply Permutation_refl.
    + eapply Permutation_trans; [apply perm_swap|].
      apply perm_skip. exact IH.
Qed.

Lemma order_by_browse_perm : forall l, Permutation (order_by_browse l) l.
Proof.
  induction l as [|x l IH]; simpl.
  - apply Permutation_refl.
  - eapply Permutation_trans.
    + apply Permutation_sym. apply browse_insert_perm.
    + apply perm_skip. exact IH.
Qed.



Lemma order_by_browse_In : forall l r, In r (order_by_browse l) <-> In r l.
Proof.
  intros l r. split; apply Permutation_in;
    [apply order_by_browse_perm | apply Permutation_sym, order_by_browse_perm].
Qed.


(* ====================================================================== *)
(** ** The declared constraints as an invariant of the table *)
(* ====================================================================== *)

Lemma distinct_NoDup : forall l, distinct l = true -> NoDup l.
Proof.
  induction l as [|x l IH]; simpl; intros H.
  - constructor.
  - apply andb_true_iff in H. destruct H as [Hx Hl].
    constructor; [|apply IH; exact Hl].
    intros Hin. apply negb_true_iff in Hx.
    assert (existsb (Z.eqb x) l = true) as Hex.
    { apply existsb_exists. exists x. split; [exact Hin | apply Z.eqb_refl]. }
    congruence.
Qed.

Lemma wfb_wf : forall t, wfb t = true -> wf t.
Proof.
  intros t H. unfold wfb in H.
  apply andb_true_iff in H. destruct H as [H H3].
  apply andb_true_iff in H. destruct H as [H1 H2].
  repeat split.
  - apply distinct_NoDup. exact H1.
  - intros r Hr. rewrite forallb_forall in H2. apply Z.leb_le. apply H2. exact Hr.
  - intros r Hr. rewrite forallb_forall in H3. apply Nat.eqb_eq. apply H3. exact Hr.
Qed.

Lemma same_key_sym : forall a b, same_key a b = same_key b a.
Proof.
  intros a b. unfold same_key.
  assert (forall x y, jsstring_eqb x y = jsstring_eqb y x) as Hs.
  { intros x y. destruct (jsstring_eqb x y) eqn:E.
    - apply jsstring_eqb_eq in E. subst. symmetry. apply jsstring_eqb_refl.
    - symmetry. apply jsstring_eqb_neq. apply jsstring_eqb_neq in E. congruence. }
  rewrite (Hs (project a)), (Hs (entry_date a)), (Z.eqb_sym (entry_number a)).
  destruct (document_type a), (document_type b); reflexivity.
Qed.

Lemma same_key_refl : forall a, same_key a a = true.
Proof.
  intros a. unfold same_key. rewrite !jsstring_eqb_refl, Z.eqb_refl.
  destruct (document_type a); reflexivity.
Qed.


Lemma key_count_app : forall r l1 l2,
  key_count r (l1 ++ l2) = (key_count r l1 + key_count r l2)%nat.
Proof. intros. unfold key_count. rewrite filter_app, length_app. reflexivity. Qed.

Lemma key_count_zero : forall r l,
  (forall x, In x l -> same_key r x = false) -> key_count r l = 0%nat.
Proof.
  intros r l H. unfold key_count.
  induction l as [|x l IH]; simpl; [reflexivity|].
  rewrite (H x (or_introl eq_refl)). apply IH.
  intros y Hy. apply H. right. exact Hy.
Qed.

Lemma key_count_zero_inv : forall r l x,
  key_count r l = 0%nat -> In x l -> same_key r x = false.
Proof.
  intros r l x. unfold key_count.
  induction l as [|y l IH]; simpl; intros H Hin; [contradiction|].
  destruct (same_key r y) eqn:E; simpl in H; [discriminate|].
  destruct Hin as [-> | Hin]; [exact E | apply IH; assumption].
Qed.

(* ---------------------------------------------------------------------- *)
(** *** SELECT by id *)

Lemma select_by_id_Some : forall target t e,
  select_by_id target t = Some e -> In e (rows t) /\ id e = target.
Proof.
  intros target t e H. unfold select_by_id in H.
  apply find_some in H. destruct H as [Hin Hid].
  apply Z.eqb_eq in Hid. auto.
Qed.

Lemma select_by_id_None : forall target t,
  select_by_id target t = None <-> (forall r, In r (rows t) -> id r <> target).
Proof.
  intros target t. unfold select_by_id. split.
  - intros H r Hr E. apply (find_none _ _ H) in Hr.
    apply Z.eqb_neq in Hr. contradiction.
  - intros H. induction (rows t) as [|x l IH]; simpl; [reflexivity|].
    destruct (id x =? target) eqn:E.
    + apply Z.eqb_eq in E. exfalso. apply (H x); simpl; auto.
    + apply IH. intros r Hr. apply H. right. exact Hr.
Qed.

Lemma NoDup_ids_unique : forall (l : list Entry) a b,
  NoDup (map id l) -> In a l -> In b l -> id a = id b -> a = b.
Proof.
  induction l as [|x l IH]; simpl; intros a b Hnd Ha Hb E; [contradiction|].
  inversion Hnd as [|? ? Hnotin Hnd']; subst.
  destruct Ha as [-> | Ha]; destruct Hb as [-> | Hb]; auto.
  - exfalso. apply Hnotin. rewrite E. apply in_map. exact Hb.
  - exfalso. apply Hnotin. rewrite <- E. apply in_map. exact Ha.
Qed.

Lemma select_by_id_unique : forall t e,
  NoDup (map id (rows t)) -> In e (rows t) -> select_by_id (id e) t = Some e.
Proof.
  intros t e Hnd Hin.
  destruct (select_by_id (id e) t) as [e'|] eqn:E.
  - apply select_by_id_Some in E. destruct E as [Hin' Hid].
    f_equal. eapply NoDup_ids_unique; eauto.
  - exfalso. rewrite select_by_id_None in E. apply (E e Hin). reflexivity.
Qed.

(* ---------------------------------------------------------------------- *)
(** *** MAX(entry_number) *)









(* ---------------------------------------------------------------------- *)
(** *** createEntry on a table that satisfies its constraints *)













(* ====================================================================== *)
(** ** Sequence assigner *)
(* ====================================================================== *)



(* ====================================================================== *)
(** ** Status normaliser *)
(* ====================================================================== *)

Lemma normalizeStatus_examples :
  normalizeStatus (utf16 9989 ++ js " Done") = JsString (js "complete")
  /\ normalizeStatus (js "URGENT") = JsString (js "blocked")
  /\ normalizeStatus (js "already_clean") = JsString (js "already_clean")
  /\ normalizeStatus (js "  In   Progress ") = JsString (js "in_progress")
  /\ normalizeStatus (js "Partial") = JsString (js "in_progress")
  /\ normalizeStatus (js "inprogress") = JsString (js "in_progress").
Proof. repeat split; reflexivity. Qed.

(** The alias table or the cleaned string, for every input whose cleaned
    form is not the name of a member of [Object.prototype]. *)
Lemma normalizeStatus_alias_or_clean : forall input,
  existsb (jsstring_eqb (clean_status input)) ObjectPrototype = false ->
  normalizeStatus input
  = JsString match find (fun kv => jsstring_eqb (fst kv) (clean_status input)) mappings with
             | Some kv => snd kv
             | None => clean_status input
             end.
Proof.
  intros input H. unfold normalizeStatus, get_property.
  destruct (find (fun kv => jsstring_eqb (fst kv) (clean_status input)) mappings)
    as [kv|] eqn:E.
  - apply find_some in E. destruct E as [Hin _].
    simpl in Hin.
    destruct Hin as [<- | [<- | [<- | [<- | []]]]]; reflexivity.
  - rewrite H. reflexivity.
Qed.

(** The character class is read code unit by code unit: the first half of
    any surrogate pair that starts like the listed glyphs is removed too. *)
Lemma clean_status_code_units :
  clean_status (utf16 128293 ++ js " hot") = 56613 :: js "_hot".
Proof. reflexivity. Qed.

(** C8.  [normalizeStatus] on the input "constructor": the cleaned string
    is "constructor", it is not a key of the alias table, and yet the
    result is not that string but the member the alias object inherits
    under that name. *)
Theorem normalizeStatus_inherited_key :
  clean_status (js "constructor") = js "constructor"
  /\ find (fun kv => jsstring_eqb (fst kv) (js "constructor")) mappings = None
  /\ normalizeStatus (js "constructor") = JsInherited (js "constructor")
  /\ normalizeStatus (js "constructor") <> JsString (js "constructor").
Proof.
  repeat split; try reflexivity.
  intros H. discriminate H.
Qed.

(** C10.  The six keys of [STATUS_DISPLAY] are complete, in_progress,
    logged, queued, blocked and observed; for each of them the display
    string normalises back to the key; and the display of [null] and of
    the empty string is the empty string. *)
Theorem status_display_roundtrip :
  STATUS_OPTIONS
  = map js ["complete"; "in_progress"; "logged"; "queued"; "blocked"; "observed"]%string
  /\ Forall (fun k => exists d,
                 getStatusDisplay (Some k) = JsString d
                 /\ normalizeStatus d = JsString k) STATUS_OPTIONS
  /\ getStatusDisplay None = JsString []
  /\ getStatusDisplay (Some []) = JsString [].
Proof.
  split; [reflexivity|]. split.
  - unfold STATUS_OPTIONS, STATUS_DISPLAY. cbn [map fst].
    repeat constructor;
      (eexists; split; [reflexivity | reflexivity]).
  - split; reflexivity.
Qed.

(* ====================================================================== *)
(** ** UPDATE and DELETE on a table that satisfies its constraints *)
(* ====================================================================== *)

Lemma assign_id : forall a r, id (assign a r) = id r.
Proof. intros [] r; reflexivity. Qed.

Lemma assign_all_id : forall sets r, id (assign_all sets r) = id r.
Proof.
  unfold assign_all. induction sets as [|a sets IH]; intros r; simpl.
  - reflexivity.
  - rewrite IH. apply assign_id.
Qed.

Lemma map_fixed : forall (f : Entry -> Entry) l,
  (forall x, In x l -> f x = x) -> map f l = l.
Proof.
  intros f l H. induction l as [|x l IH]; simpl; [reflexivity|].
  rewrite (H x (or_introl eq_refl)). f_equal. apply IH.
  intros y Hy. apply H. right. exact Hy.
Qed.


(** The row with a given identifier splits the table in two parts that do
    not hold this identifier. *)
Lemma rows_split : forall target t e,
  wf t -> select_by_id target t = Some e ->
  exists l1 l2,
    rows t = l1 ++ e :: l2
    /\ (forall x, In x (l1 ++ l2) -> id x <> target).
Proof.
  intros target t e [Hnd _] Hsel.
  apply select_by_id_Some in Hsel. destruct Hsel as [Hin Hid].
  apply in_split in Hin. destruct Hin as [l1 [l2 Hrows]].
  exists l1, l2. split; [exact Hrows|].
  intros x Hx E. rewrite Hrows, map_app in Hnd. simpl in Hnd.
  apply NoDup_remove_2 in Hnd. apply Hnd.
  rewrite <- map_app. rewrite Hid, <- E. apply in_map. exact Hx.
Qed.

Lemma replace_row_split : forall e' t l1 e l2,
  rows t = l1 ++ e :: l2 -> id e = id e' ->
  (forall x, In x (l1 ++ l2) -> id x <> id e') ->
  rows (replace_row e' t) = l1 ++ e' :: l2.
Proof.
  intros e' t l1 e l2 Hrows Hid Hother. unfold replace_row. simpl.
  rewrite Hrows, map_app. simpl. rewrite Hid, Z.eqb_refl.
  rewrite !map_fixed; [reflexivity | |].
  - intros x Hx. assert (id x <> id e') as Hne.
    { apply Hother. apply in_app_iff. auto. }
    apply Z.eqb_neq in Hne. rewrite Hne. reflexivity.
  - intros x Hx. assert (id x <> id e') as Hne.
    { apply Hother. apply in_app_iff. auto. }
    apply Z.eqb_neq in Hne. rewrite Hne. reflexivity.
Qed.

Lemma select_split : forall target t l1 e l2,
  rows t = l1 ++ e :: l2 -> id e = target ->
  (forall x, In x (l1 ++ l2) -> id x <> target) ->
  select_by_id target t = Some e.
Proof.
  intros target t l1 e l2 Hrows Hid Hother. unfold select_by_id. rewrite Hrows.
  clear Hrows. induction l1 as [|x l1 IH]; simpl.
  - rewrite Hid, Z.eqb_refl. reflexivity.
  - assert (id x <> target) as Hne by (apply Hother; simpl; auto).
    apply Z.eqb_neq in Hne. rewrite Hne. apply IH.
    intros y Hy. apply Hother. simpl. auto.
Qed.

(** In a table that satisfies UNIQUE, the key of a row is the key of no
    other row. *)
Lemma wf_other_keys : forall t l1 e l2 x,
  wf t -> rows t = l1 ++ e :: l2 -> In x (l1 ++ l2) -> same_key e x = false.
Proof.
  intros t l1 e l2 x [_ [_ Hkey]] Hrows Hx.
  assert (In e (rows t)) as He by (rewrite Hrows; apply in_elt).
  specialize (Hkey e He). rewrite Hrows, key_count_app in Hkey.
  unfold key_count at 2 in Hkey. simpl in Hkey. rewrite same_key_refl in Hkey.
  simpl in Hkey. fold (key_count e l2) in Hkey.
  apply in_app_iff in Hx. destruct Hx as [Hx | Hx].
  - apply (key_count_zero_inv e l1); [lia | exact Hx].
  - apply (key_count_zero_inv e l2); [lia | exact Hx].
Qed.

Lemma sql_update_on_wf : forall sets target t e,
  wf t -> select_by_id target t = Some e ->
  (forall x, In x (rows t) -> id x <> target ->
             same_key (assign_all sets e) x = false) ->
  sql_update sets target t = Ok (replace_row (assign_all sets e) t).
Proof.
  intros sets target t e Hwf Hsel Hfresh.
  destruct (rows_split target t e Hwf Hsel) as [l1 [l2 [Hrows Hother]]].
  pose proof (select_by_id_Some _ _ _ Hsel) as [_ Hid].
  set (e' := assign_all sets e).
  assert (id e' = target) as Hid' by (unfold e'; rewrite assign_all_id; exact Hid).
  assert (map (fun r => if id r =? target then assign_all sets r else r) (rows t)
          = rows (replace_row e' t)) as Hmap.
  { unfold replace_row. simpl. apply map_ext_in. intros r Hr. rewrite Hid'.
    destruct (id r =? target) eqn:E; [|reflexivity].
    apply Z.eqb_eq in E. unfold e'. f_equal.
    destruct Hwf as [Hnd _]. apply select_by_id_Some in Hsel.
    destruct Hsel as [Hin _].
    apply (NoDup_ids_unique (rows t)); auto. lia. }
  assert (rows (replace_row e' t) = l1 ++ e' :: l2) as Hrows'.
  { apply (replace_row_split e' t l1 e l2 Hrows); [lia|].
    intros x Hx. rewrite Hid'. apply Hother. exact Hx. }
  unfold sql_update. cbv zeta. rewrite Hmap.
  replace (existsb (fun r => (id r =? target)
                             && (1 <? key_count r (rows (replace_row e' t)))%nat)
             (rows (replace_row e' t))) with false.
  { unfold replace_row. reflexivity. }
  symmetry. apply not_true_is_false. intros H.
  rewrite Hrows' in H.
  apply existsb_exists in H. destruct H as [r [Hr Hc]].
  apply andb_true_iff in Hc. destruct Hc as [Hc1 Hc2].
  apply Z.eqb_eq in Hc1. apply Nat.ltb_lt in Hc2.
  apply in_app_iff in Hr. simpl in Hr.
  assert (r = e') as ->.
  { destruct Hr as [Hr | [Hr | Hr]]; [| auto |].
    - exfalso. apply (Hother r); [apply in_app_iff; auto | exact Hc1].
    - exfalso. apply (Hother r); [apply in_app_iff; auto | exact Hc1]. }
  rewrite key_count_app in Hc2. unfold key_count at 2 in Hc2. simpl in Hc2.
  rewrite same_key_refl in Hc2. simpl in Hc2. fold (key_count e' l2) in Hc2.
  assert (forall x, In x (l1 ++ l2) -> same_key e' x = false) as Hf.
  { intros x Hx. apply Hfresh.
    - rewrite Hrows. apply in_app_iff in Hx. apply in_app_iff. simpl. tauto.
    - apply Hother. exact Hx. }
  rewrite (key_count_zero e' l1), (key_count_zero e' l2) in Hc2.
  - lia.
  - intros x Hx. apply Hf. apply in_app_iff. auto.
  - intros x Hx. apply Hf. apply in_app_iff. auto.
Qed.

Lemma wf_replace_row : forall t e e' target,
  wf t -> select_by_id target t = Some e -> id e' = target ->
  (forall x, In x (rows t) -> id x <> target -> same_key e' x = false) ->
  wf (replace_row e' t)
  /\ select_by_id target (replace_row e' t) = Some e'.
Proof.
  intros t e e' target Hwf Hsel Hid' Hfresh.
  destruct (rows_split target t e Hwf Hsel) as [l1 [l2 [Hrows Hother]]].
  pose proof (select_by_id_Some _ _ _ Hsel) as [_ Hid].
  assert (rows (replace_row e' t) = l1 ++ e' :: l2) as Hrows'.
  { apply (replace_row_split e' t l1 e l2 Hrows); [lia|].
    intros x Hx. rewrite Hid'. apply Hother. exact Hx. }
  split.
  2:{ apply (select_split target _ l1 e' l2 Hrows' Hid' Hother). }
  pose proof Hwf as [Hnd [Hle Hkey]].
  unfold wf. rewrite Hrows'. change (last_id (replace_row e' t)) with (last_id t).
  assert (forall x, In x (l1 ++ l2) -> same_key e' x = false) as Hf.
  { intros x Hx. apply Hfresh.
    - rewrite Hrows. apply in_app_iff in Hx. apply in_app_iff. simpl. tauto.
    - apply Hother. exact Hx. }
  repeat split.
  - rewrite Hrows in Hnd. rewrite map_app in *. simpl in *.
    rewrite Hid'. rewrite Hid in Hnd. exact Hnd.
  - intros x Hx. apply in_app_iff in Hx. simpl in Hx.
    destruct Hx as [Hx | [<- | Hx]].
    + apply Hle. rewrite Hrows. apply in_app_iff. auto.
    + rewrite Hid', <- Hid. apply Hle. rewrite Hrows. apply in_elt.
    + apply Hle. rewrite Hrows. apply in_app_iff. simpl. auto.
  - intros x Hx.
    assert (forall y, In y (l1 ++ l2) ->
                      key_count y (l1 ++ e' :: l2) = 1%nat) as Hcount.
    { intros y Hy.
      assert (In y (rows t)) as Hyt.
      { rewrite Hrows. apply in_app_iff in Hy. apply in_app_iff. simpl. tauto. }
      pose proof (Hkey y Hyt) as Hk. rewrite Hrows in Hk.
      rewrite key_count_app in *. unfold key_count at 2. unfold key_count at 2 in Hk.
      simpl in *. fold (key_count y l2) in *.
      rewrite (same_key_sym y e'), (Hf y Hy).
      rewrite (same_key_sym y e), (wf_other_keys t l1 e l2 y Hwf Hrows Hy) in Hk.
      exact Hk. }
    apply in_app_iff in Hx. simpl in Hx. destruct Hx as [Hx | [<- | Hx]].
    + apply Hcount. apply in_app_iff. auto.
    + rewrite key_count_app. unfold key_count at 2. simpl.
      rewrite same_key_refl. simpl. fold (key_count e' l2).
      rewrite (key_count_zero e' l1), (key_count_zero e' l2);
        [reflexivity | |]; intros y Hy; apply Hf; apply in_app_iff; auto.
    + apply Hcount. apply in_app_iff. auto.
Qed.

Lemma wf_distinct_keys : forall t e x,
  wf t -> select_by_id (id e) t = Some e -> In x (rows t) -> id x <> id e ->
  same_key e x = false.
Proof.
  intros t e x Hwf Hsel Hx Hne.
  destruct (rows_split (id e) t e Hwf Hsel) as [l1 [l2 [Hrows Hother]]].
  apply (wf_other_keys t l1 e l2 x Hwf Hrows).
  rewrite Hrows in Hx. apply in_app_iff in Hx. apply in_app_iff.
  destruct Hx as [Hx | [Hx | Hx]]; auto. subst x. contradiction.
Qed.






Lemma changes_positive : forall target t,
  (0 <? changes target t) = true <-> exists e, select_by_id target t = Some e.
Proof.
  intros target t. unfold changes, select_by_id.
  induction (rows t) as [|x l IH]; simpl.
  - split; [discriminate | intros [e H]; discriminate].
  - destruct (id x =? target); simpl.
    + split; [intros _; eauto | intros _; apply Z.ltb_lt; lia].
    + exact IH.
Qed.




Lemma soft_delete_on_wf : forall usePostgres now t e,
  wf t -> select_by_id (id e) t = Some e ->
  deleteEntry usePostgres now (id e) false (Some t)
  = Ok (Some (replace_row (soft_deleted_row now e) t), true)
  /\ wf (replace_row (soft_deleted_row now e) t)
  /\ select_by_id (id e) (replace_row (soft_deleted_row now e) t)
     = Some (soft_deleted_row now e).
Proof.
  intros usePostgres now t e Hwf Hsel.
  assert (forall x, In x (rows t) -> id x <> id e ->
                    same_key (soft_deleted_row now e) x = false) as Hfresh.
  { intros x Hx Hne. apply (wf_distinct_keys t e x Hwf Hsel Hx Hne). }
  assert ((0 <? changes (id e) t) = true) as Hch.
  { apply changes_positive. eauto. }
  split.
  - destruct usePostgres;
      unfold deleteEntry, postgresDeleteEntry, sqliteDeleteEntry, relation, getSqliteDb,
        create_table_if_not_exists; cbn [bind];
      rewrite (sql_update_on_wf _ (id e) t e Hwf Hsel) by exact Hfresh;
      cbn [bind]; rewrite Hch; reflexivity.
  - apply (wf_replace_row t e (soft_deleted_row now e) (id e) Hwf Hsel eq_refl Hfresh).
Qed.


(* ====================================================================== *)
(** ** Not-found results *)
(* ====================================================================== *)



(* ====================================================================== *)
(** ** Listing *)
(* ====================================================================== *)




Lemma matching_In : forall usePostgres f t r,
  In r (matching usePostgres f t)
  <-> In r (rows t) /\ where_all (conditions usePostgres f) r = true.
Proof.
  intros. unfold matching, select_where.
  rewrite order_by_browse_In. apply filter_In.
Qed.



Lemma In_firstn : forall (n : nat) (l : list Entry) r, In r (firstn n l) -> In r l.
Proof.
  induction n as [|n IH]; intros [|x l] r H; simpl in *; try contradiction.
  destruct H as [H | H]; auto.
Qed.

Lemma In_skipn : forall (n : nat) (l : list Entry) r, In r (skipn n l) -> In r l.
Proof.
  induction n as [|n IH]; intros [|x l] r H; simpl in *; try contradiction; auto.
Qed.

Lemma page_In : forall limit offset l r, In r (page limit offset l) -> In r l.
Proof. intros. unfold page in *. eapply In_skipn, In_firstn; eauto. Qed.

(** Whatever the limit and offset, a listing that returns only returns
    rows that pass its conditions. *)
Lemma listEntries_returns_matches : forall usePostgres f t db' res r,
  listEntries usePostgres f (Some t) = Ok (db', res) ->
  In r (entries res) -> In r (matching usePostgres f t).
Proof.
  intros usePostgres f t db' res r Hrun Hr.
  destruct usePostgres;
    unfold listEntries, postgresListEntries, sqliteListEntries, relation, getSqliteDb,
      create_table_if_not_exists, postgres_limit_offset, sqlite_limit_offset in Hrun;
    cbn [bind] in Hrun.
  - destruct (page_offset f <? 0); [discriminate|].
    destruct (page_limit f <? 0); [discriminate|].
    cbn [bind] in Hrun. inversion Hrun; subst. simpl in Hr.
    eapply In_skipn, In_firstn; eauto.
  - inversion Hrun; subst. simpl in Hr.
    destruct (page_limit f <? 0).
    + eapply In_skipn; eauto.
    + eapply In_skipn, In_firstn; eauto.
Qed.

Lemma default_listing_hides_deleted : forall usePostgres f r,
  not_includeDeleted f = true ->
  where_all (conditions usePostgres f) r = true -> is_deleted r = 0.
Proof.
  intros usePostgres f r Hd Hw.
  destruct usePostgres; unfold conditions, postgresConditions, sqliteConditions in Hw;
    rewrite Hd in Hw; unfold where_all in Hw; simpl in Hw;
    apply andb_true_iff in Hw; destruct Hw as [Hw _]; apply Z.eqb_eq; exact Hw.
Qed.


(* ====================================================================== *)
(** ** Create, then read back *)
(* ====================================================================== *)

Lemma getEntry_Some : forall usePostgres target t,
  getEntry usePostgres target (Some t) = Ok (Some t, select_by_id target t).
Proof. intros [] target t; reflexivity. Qed.





(* ====================================================================== *)
(** ** Soft delete *)
(* ====================================================================== *)




(* ====================================================================== *)
(** ** Order and pagination *)
(* ====================================================================== *)




(* ====================================================================== *)
(** ** Free-text search *)
(* ====================================================================== *)














Lemma search_terms_example :
  search_terms (js "  auth   fix ") = [js "auth"; js "fix"].
Proof. reflexivity. Qed.




(* ====================================================================== *)
(** ** The two backends side by side *)
(* ====================================================================== *)











(* ====================================================================== *)
(** ** The constraints hold in every state the API can reach *)
(* ====================================================================== *)






Lemma wf_empty_table : wf empty_table.
Proof. apply wfb_wf. reflexivity. Qed.

(* ====================================================================== *)
(** ** The terms of a search *)
(* ====================================================================== *)

Lemma split_ws_from_words : forall s cur in_run piece c,
  (forall x, In x cur -> is_white_space x = false) ->
  In piece (split_ws_from cur in_run s) -> In c piece -> is_white_space c = false.
Proof.
  induction s as [|x s IH]; simpl; intros cur in_run piece c Hcur Hp Hc.
  - destruct Hp as [<- | []]. apply Hcur. apply in_rev. exact Hc.
  - destruct (is_white_space x) eqn:Ex.
    + destruct in_run.
      * apply (IH cur true piece c Hcur Hp Hc).
      * destruct Hp as [<- | Hp].
        { apply Hcur. apply in_rev. exact Hc. }
        { apply (IH [] true piece c); [intros y [] | exact Hp | exact Hc]. }
    + apply (IH (x :: cur) false piece c); [|exact Hp | exact Hc].
      intros y [<- | Hy]; [exact Ex | apply Hcur; exact Hy].
Qed.

(** The terms of [q] are not empty and hold no white space. *)
Lemma search_terms_are_words : forall q term,
  In term (search_terms q) ->
  term <> [] /\ forall c, In c term -> is_white_space c = false.
Proof.
  intros q term H. unfold search_terms in H. apply filter_In in H.
  destruct H as [Hin Hlen]. split.
  - intros ->. discriminate Hlen.
  - intros c Hc. apply (split_ws_from_words (trim q) [] false term c);
      [intros x [] | exact Hin | exact Hc].
Qed.

(* ====================================================================== *)
(** ** Partial update: what changes and what does not *)
(* ====================================================================== *)




(* ====================================================================== *)
(** ** Hard delete *)
(* ====================================================================== *)



(* ====================================================================== *)
(** ** Sequences of calls *)
(* ====================================================================== *)












(* ====================================================================== *)
(** ** Entry numbers after a delete *)
(* ====================================================================== *)





(* ====================================================================== *)
(** ** The schema *)
(* ====================================================================== *)

(** X7.  [initSchema] never raises and is idempotent: it creates an empty
    table when there is none and leaves an existing table as it is, so
    calling it again changes nothing.  Once it has run no call fails for
    a missing table.  SQLite does not need it: on a database without the
    schema every SQLite call behaves as on the empty table. *)
Theorem initSchema_is_idempotent :
  forall usePostgres db,
    exists t,
      initSchema usePostgres db = Ok (Some t, tt)
      /\ initSchema usePostgres (Some t) = Ok (Some t, tt)
      /\ (forall t0, db = Some t0 -> t = t0)
      /\ (db = None -> t = empty_table)
      /\ (forall c, call usePostgres c (Some t) <> Throw UndefinedTable)
      /\ (forall c, call false c None = call false c (Some empty_table)).
Proof.
  intros usePostgres db.
  exists (create_table_if_not_exists db).
  split; [destruct usePostgres; reflexivity|].
  split; [destruct usePostgres; reflexivity|].
  split; [intros t0 ->; reflexivity|].
  split; [intros ->; reflexivity|].
  split.
  - intros c. generalize (create_table_if_not_exists db). intros t.
    destruct c as [|f|target|now input|now target input|now target hard];
      destruct usePostgres; unfold call;
      unfold initSchema, listEntries, getEntry, createEntry, updateEntry, deleteEntry,
        postgresInitSchema, postgresListEntries, postgresGetEntry, postgresCreateEntry,
        postgresUpdateEntry, postgresDeleteEntry, sqliteListEntries, sqliteGetEntry,
        sqliteCreateEntry, sqliteUpdateEntry, sqliteDeleteEntry, relation, getSqliteDb,
        create_table_if_not_exists, postgres_limit_offset, sql_insert, sql_update;
      cbn [bind fst snd]; try discriminate.
    + destruct (page_offset f <? 0); [discriminate|].
      destruct (page_limit f <? 0); discriminate.
    + repeat match goal with
             | |- context [if ?b then _ else _] => destruct b; cbn [bind fst snd]
             end; discriminate.
    + repeat match goal with
             | |- context [if ?b then _ else _] => destruct b; cbn [bind fst snd]
             end; try discriminate.
      destruct (select_by_id _ _); discriminate.
    + destruct (select_by_id target t); [|discriminate].
      repeat match goal with
             | |- context [match ?x with Some _ => _ | None => _ end] =>
                 destruct x; cbn [bind fst snd]
             | |- context [if ?b then _ else _] => destruct b; cbn [bind fst snd]
             end; discriminate.
    + destruct (select_by_id target t); [|discriminate].
      repeat match goal with
             | |- context [match ?x with Some _ => _ | None => _ end] =>
                 destruct x; cbn [bind fst snd]
             | |- context [if ?b then _ else _] => destruct b; cbn [bind fst snd]
             end; discriminate.
    + destruct hard; [discriminate|].
      repeat match goal with
             | |- context [if ?b then _ else _] => destruct b; cbn [bind fst snd]
             end; discriminate.
    + destruct hard; [discriminate|].
      repeat match goal with
             | |- context [if ?b then _ else _] => destruct b; cbn [bind fst snd]
             end; discriminate.
  - intros c. destruct c; reflexivity.
Qed.

(* ====================================================================== *)
(** ** Filters: falsy fields, what a listing selects, pages *)
(* ====================================================================== *)

Lemma str_or_null_idem : forall v, str_or_null (str_or_null v) = str_or_null v.
Proof. intros [[|c s]|]; reflexivity. Qed.

Lemma drop_falsy_conditions : forall usePostgres f,
  conditions usePostgres (drop_falsy f) = conditions usePostgres f.
Proof.
  intros usePostgres f.
  destruct usePostgres; unfold conditions, postgresConditions, sqliteConditions,
    drop_falsy, not_includeDeleted;
    cbn [Filters.project Filters.document_type Filters.after Filters.before
         Filters.q Filters.includeDeleted];
    rewrite !str_or_null_idem;
    (f_equal; [destruct (Filters.includeDeleted f) as [[|]|]; reflexivity|]);
    do 4 f_equal;
    (destruct (Filters.q f) as [q|]; [|reflexivity]);
    (destruct (search_terms q) as [|term terms] eqn:E;
     [ destruct q; cbn [str_or_null]; rewrite ?E; reflexivity
     | reflexivity ]).
Qed.

Lemma drop_falsy_page : forall f,
  page_limit (drop_falsy f) = page_limit f
  /\ page_offset (drop_falsy f) = page_offset f.
Proof.
  intros f. unfold page_limit, page_offset, drop_falsy.
  cbn [Filters.limit Filters.offset].
  destruct (Filters.limit f) as [[|l|l]|], (Filters.offset f) as [[|o|o]|];
    split; reflexivity.
Qed.

(** X8.  Falsy filter fields are no filter at all: an empty string for
    project, after, before or [q], a [q] made of white space only, a
    limit or offset of 0 and [includeDeleted: false] give the listing, or
    the error, that the filter without them gives. *)
Theorem falsy_filters_are_ignored :
  forall usePostgres f db,
    listEntries usePostgres f db = listEntries usePostgres (drop_falsy f) db.
Proof.
  intros usePostgres f db.
  pose proof (drop_falsy_conditions usePostgres f) as Hc.
  destruct (drop_falsy_page f) as [Hl Ho].
  destruct usePostgres; unfold listEntries, postgresListEntries, sqliteListEntries;
    unfold conditions in Hc; rewrite Hc, Hl, Ho; reflexivity.
Qed.











(* ====================================================================== *)
(** ** The cleaned status *)
(* ====================================================================== *)
















(* ====================================================================== *)
(** ** The API key *)
(* ====================================================================== *)

Lemma split_not_nil : forall sep s, split sep s <> [].
Proof.
  intros sep [|c s]; simpl; [discriminate|].
  destruct (c =? sep); [discriminate|].
  destruct (split sep s); discriminate.
Qed.

Lemma split_cons_inv : forall sep s a rest,
  split sep s = a :: rest ->
  ~ In sep a
  /\ ((rest = [] /\ s = a) \/ (exists b, s = a ++ sep :: b /\ split sep b = rest)).
Proof.
  intros sep. induction s as [|c s IH]; intros a rest H; simpl in H.
  - inversion H; subst. split; [intros []|]. left. split; reflexivity.
  - destruct (c =? sep) eqn:Hc.
    + apply Z.eqb_eq in Hc. inversion H; subst. split; [intros []|].
      right. exists s. split; reflexivity.
    + apply Z.eqb_neq in Hc.
      destruct (split sep s) as [|p ps] eqn:Hs; [exfalso; eapply split_not_nil; eauto|].
      inversion H; subst. destruct (IH p rest eq_refl) as [Hp Hcases].
      split.
      * intros [Heq | Hin]; [congruence | exact (Hp Hin)].
      * destruct Hcases as [[Hr Hsp] | [b [Hsb Hb]]].
        -- left. split; [exact Hr | congruence].
        -- right. exists b. split; [rewrite Hsb; reflexivity | exact Hb].
Qed.

Lemma split_no_sep : forall sep s, ~ In sep s -> split sep s = [s].
Proof.
  intros sep. induction s as [|c s IH]; intros H; simpl; [reflexivity|].
  destruct (c =? sep) eqn:Hc.
  - apply Z.eqb_eq in Hc. exfalso. apply H. left. exact Hc.
  - rewrite IH; [reflexivity|]. intros Hin. apply H. right. exact Hin.
Qed.

Lemma split_app : forall sep a b,
  ~ In sep a -> split sep (a ++ sep :: b) = a :: split sep b.
Proof.
  intros sep. induction a as [|c a IH]; intros b H; simpl.
  - rewrite Z.eqb_refl. reflexivity.
  - destruct (c =? sep) eqn:Hc.
    + apply Z.eqb_eq in Hc. exfalso. apply H. left. exact Hc.
    + rewrite IH; [reflexivity|]. intros Hin. apply H. right. exact Hin.
Qed.

(** The header gives a token exactly when it reads [Bearer], one space,
    and a token without a space. *)
Lemma header_token_Some : forall h t,
  header_token h = Some t <-> h = Some (js "Bearer " ++ t) /\ ~ In space t.
Proof.
  intros h t. unfold header_token. split.
  - intros H. destruct h as [[|c h]|]; cbn [str_or_null] in H; try discriminate.
    destruct (split space (c :: h)) as [|scheme [|credentials [|x rest]]] eqn:Hs;
      try discriminate.
    destruct (jsstring_eqb scheme (js "Bearer")) eqn:Hb; [|discriminate].
    apply jsstring_eqb_eq in Hb. inversion H; subst. clear H.
    apply split_cons_inv in Hs. destruct Hs as [_ [[Hr _] | [b [Hsb Hb]]]];
      [discriminate|].
    apply split_cons_inv in Hb. destruct Hb as [Ht [[_ Hbt] | [b' [_ Hb']]]].
    + subst b. split; [|exact Ht]. rewrite Hsb. reflexivity.
    + exfalso. eapply split_not_nil; eauto.
  - intros [-> Ht].
    change (js "Bearer " ++ t) with (js "Bearer" ++ space :: t).
    assert (str_or_null (Some (js "Bearer" ++ space :: t))
            = Some (js "Bearer" ++ space :: t)) as -> by reflexivity.
    rewrite split_app.
    + rewrite (split_no_sep space t Ht). reflexivity.
    + vm_compute. intuition discriminate.
Qed.

Lemma verifyAuth_by_header : forall apiKey request t,
  t <> [] -> ~ In space t ->
  authorization request = Some (js "Bearer " ++ t) ->
  verifyAuth apiKey request
  = match str_or_null apiKey with
    | None => Rejected (error_response 500 "Server configuration error")
    | Some key =>
        if jsstring_eqb t key then Authenticated
        else Rejected (error_response 401 "Invalid API key")
    end.
Proof.
  intros apiKey request t Hne Hsp Hh. unfold verifyAuth.
  destruct (str_or_null apiKey) as [key|]; [|reflexivity].
  assert (header_token (authorization request) = Some t) as ->
    by (apply header_token_Some; auto).
  destruct t as [|c t]; [congruence|]. reflexivity.
Qed.

Lemma verifyAuth_by_query : forall apiKey request,
  str_or_null (header_token (authorization request)) = None ->
  verifyAuth apiKey request
  = match str_or_null apiKey with
    | None => Rejected (error_response 500 "Server configuration error")
    | Some key =>
        match str_or_null (searchParams_get "token" request) with
        | None =>
            Rejected (error_response 401
              "Missing authentication. Provide Authorization header or token parameter.")
        | Some tok =>
            if jsstring_eqb tok key then Authenticated
            else Rejected (error_response 401 "Invalid API key")
        end
    end.
Proof.
  intros apiKey request Hh. unfold verifyAuth. rewrite Hh. reflexivity.
Qed.

Lemma no_header_token_iff : forall request,
  no_header_token request
  <-> str_or_null (header_token (authorization request)) = None.
Proof.
  intros request. unfold no_header_token. split.
  - intros H. destruct (header_token (authorization request)) as [[|c t]|] eqn:Ht;
      try reflexivity.
    apply header_token_Some in Ht. destruct Ht as [Hh Hsp].
    exfalso. apply (H (c :: t)); [discriminate | exact Hsp | exact Hh].
  - intros H t Hne Hsp Hh.
    assert (header_token (authorization request) = Some t) as Ht
      by (apply header_token_Some; auto).
    rewrite Ht in H. destruct t; [congruence | discriminate].
Qed.

Lemma str_or_null_Some : forall s v, str_or_null s = Some v -> s = Some v /\ v <> [].
Proof.
  intros [[|c s]|] v H; simpl in H; try discriminate.
  inversion H; subst. split; [reflexivity | discriminate].
Qed.

(** X13.  [verifyAuth] lets a request through exactly when a non-empty
    key is configured and the request carries it: in a header that reads
    [Bearer], one space, the key (which then holds no space), or, when
    the header gives no token, as the first [token] query parameter. *)
Theorem verifyAuth_authenticates_iff :
  forall apiKey request,
    verifyAuth apiKey request = Authenticated
    <-> exists key,
          apiKey = Some key /\ key <> []
          /\ ((authorization request = Some (js "Bearer " ++ key) /\ ~ In space key)
              \/ (no_header_token request
                  /\ searchParams_get "token" request = Some key)).
Proof.
  intros apiKey request. split.
  - intros H.
    destruct (str_or_null apiKey) as [key|] eqn:Hk;
      [|unfold verifyAuth in H; rewrite Hk in H; discriminate].
    apply str_or_null_Some in Hk. destruct Hk as [-> Hkey].
    exists key. split; [reflexivity|]. split; [exact Hkey|].
    destruct (str_or_null (header_token (authorization request))) as [t|] eqn:Ht.
    + left. apply str_or_null_Some in Ht. destruct Ht as [Ht Hne].
      apply header_token_Some in Ht. destruct Ht as [Hh Hsp].
      rewrite (verifyAuth_by_header _ _ t Hne Hsp Hh) in H.
      destruct key as [|k key]; [congruence|]. cbn [str_or_null] in H.
      destruct (jsstring_eqb t (k :: key)) eqn:He; [|discriminate].
      apply jsstring_eqb_eq in He. subst t. split; assumption.
    + right. split; [apply no_header_token_iff; exact Ht|].
      rewrite (verifyAuth_by_query _ _ Ht) in H.
      destruct key as [|k key]; [congruence|]. cbn [str_or_null] in H.
      destruct (str_or_null (searchParams_get "token" request)) as [tok|] eqn:Hq;
        [|discriminate].
      apply str_or_null_Some in Hq. destruct Hq as [Hq _].
      destruct (jsstring_eqb tok (k :: key)) eqn:He; [|discriminate].
      apply jsstring_eqb_eq in He. congruence.
  - intros [key [-> [Hkey [[Hh Hsp] | [Hno Hq]]]]].
    + rewrite (verifyAuth_by_header _ _ key Hkey Hsp Hh).
      destruct key as [|k key]; [congruence|]. cbn [str_or_null].
      rewrite jsstring_eqb_refl. reflexivity.
    + apply no_header_token_iff in Hno. rewrite (verifyAuth_by_query _ _ Hno).
      rewrite Hq. destruct key as [|k key]; [congruence|]. cbn [str_or_null].
      rewrite jsstring_eqb_refl. reflexivity.
Qed.

(** X14.  The header comes first: when it carries a non-empty token the
    query is not looked at.  A wrong token in the header is refused with
    401 "Invalid API key" also when [?token=] holds the right key, and
    without a configured key the answer is 500 whatever is presented. *)
Theorem header_token_takes_precedence :
  forall apiKey request t params,
    t <> [] -> ~ In space t ->
    authorization request = Some (js "Bearer " ++ t) ->
    verifyAuth apiKey request
    = verifyAuth apiKey {| authorization := authorization request; query := params |}
    /\ (forall key, str_or_null apiKey = Some key -> t <> key ->
          verifyAuth apiKey request = Rejected (error_response 401 "Invalid API key"))
    /\ (str_or_null apiKey = None ->
          verifyAuth apiKey request
          = Rejected (error_response 500 "Server configuration error")).
Proof.
  intros apiKey request t params Hne Hsp Hh.
  rewrite (verifyAuth_by_header apiKey request t Hne Hsp Hh).
  split; [|split].
  - symmetry. apply verifyAuth_by_header; assumption.
  - intros key Hk Hdiff. rewrite Hk.
    destruct (jsstring_eqb t key) eqn:He; [|reflexivity].
    apply jsstring_eqb_eq in He. contradiction.
  - intros Hk. rewrite Hk. reflexivity.
Qed.

Lemma header_token_takes_precedence_witness :
  verifyAuth (Some sample_key) (bearer (js "guess") [(js "token", js "s3cret")])
  = Rejected (error_response 401 "Invalid API key")
  /\ verifyAuth (Some sample_key) (anonymous [(js "token", js "s3cret")]) = Authenticated.
Proof.
  split; [|reflexivity].
  refine (proj1 (proj2 (header_token_takes_precedence (Some sample_key)
                          (bearer (js "guess") [(js "token", js "s3cret")]) (js "guess") []
                          _ _ eq_refl)) sample_key eq_refl _).
  - discriminate.
  - vm_compute. intuition discriminate.
  - discriminate.
Defined.



(* ====================================================================== *)
(** ** Dates as text *)
(* ====================================================================== *)

Lemma is_digit_range : forall c, is_digit c = true -> 48 <= c <= 57.
Proof.
  intros c H. unfold is_digit in H. apply andb_true_iff in H.
  destruct H as [H1 H2]. apply Z.leb_le in H1. apply Z.leb_le in H2. lia.
Qed.

Lemma date_format_shape : forall s,
  date_format s = true ->
  exists y1 y2 y3 y4 m1 m2 d1 d2,
    s = [y1; y2; y3; y4; 45; m1; m2; 45; d1; d2]
    /\ Forall (fun c => is_digit c = true) [y1; y2; y3; y4; m1; m2; d1; d2].
Proof.
  intros s H. unfold date_format in H.
  destruct s as [|y1 [|y2 [|y3 [|y4 [|h1 [|m1 [|m2 [|h2 [|d1 [|d2 [|x s]]]]]]]]]]];
    try discriminate.
  apply andb_true_iff in H. destruct H as [H Hh2].
  apply andb_true_iff in H. destruct H as [H Hh1].
  apply Z.eqb_eq in Hh1. apply Z.eqb_eq in Hh2. subst h1 h2.
  exists y1, y2, y3, y4, m1, m2, d1, d2. split; [reflexivity|].
  apply Forall_forall. apply forallb_forall. exact H.
Qed.

Lemma day_number_digits : forall y1 y2 y3 y4 m1 m2 d1 d2,
  Forall (fun c => is_digit c = true) [y1; y2; y3; y4; m1; m2; d1; d2] ->
  day_number [y1; y2; y3; y4; 45; m1; m2; 45; d1; d2]
  = (y1 - 48) * 10000000 + (y2 - 48) * 1000000 + (y3 - 48) * 100000
    + (y4 - 48) * 10000 + (m1 - 48) * 1000 + (m2 - 48) * 100
    + (d1 - 48) * 10 + (d2 - 48).
Proof.
  intros y1 y2 y3 y4 m1 m2 d1 d2 H.
  repeat match goal with
         | H : Forall _ (_ :: _) |- _ => inversion H; subst; clear H
         end.
  unfold day_number. cbn [filter].
  repeat match goal with
         | H : is_digit ?c = true |- _ => rewrite H; clear H
         end.
  change (is_digit 45) with false. cbv beta iota.
  unfold decimal. cbn [fold_left]. lia.
Qed.

Ltac next_unit :=
  match goal with
  | |- match ?x ?= ?y with _ => _ end = _ =>
      destruct (Z.compare_spec x y);
      [ subst
      | symmetry; apply Z.compare_lt_iff; lia
      | symmetry; apply Z.compare_gt_iff; lia ]
  end.

(** X16.  On strings that pass the date check of the routes,
    [/^\d{4}-\d{2}-\d{2}$/], the text order that the store sorts and
    filters by is the order of the days: comparing two such strings code
    unit by code unit gives what comparing their numbers yyyymmdd gives,
    and equal numbers mean equal strings. *)
Theorem text_order_of_dates_is_day_order :
  forall a b,
    date_format a = true ->
    date_format b = true ->
    str_compare a b = (day_number a ?= day_number b)
    /\ (day_number a = day_number b -> a = b).
Proof.
  intros a b Ha Hb.
  apply date_format_shape in Ha. destruct Ha as (a1 & a2 & a3 & a4 & a5 & a6 & a7 & a8 & -> & Ha).
  apply date_format_shape in Hb. destruct Hb as (b1 & b2 & b3 & b4 & b5 & b6 & b7 & b8 & -> & Hb).
  rewrite (day_number_digits _ _ _ _ _ _ _ _ Ha), (day_number_digits _ _ _ _ _ _ _ _ Hb).
  repeat match goal with
         | H : Forall _ (_ :: _) |- _ => inversion H; subst; clear H
         | H : Forall _ [] |- _ => clear H
         | H : is_digit _ = true |- _ => apply is_digit_range in H
         end.
  split.
  - cbn [str_compare].
    do 4 next_unit. change (45 ?= 45) with Eq. cbv beta iota.
    do 2 next_unit. change (45 ?= 45) with Eq. cbv beta iota.
    do 2 next_unit.
    symmetry. apply Z.compare_eq_iff. reflexivity.
  - intros H.
    assert (a1 = b1) by lia. subst.
    assert (a2 = b2) by lia. subst.
    assert (a3 = b3) by lia. subst.
    assert (a4 = b4) by lia. subst.
    assert (a5 = b5) by lia. subst.
    assert (a6 = b6) by lia. subst.
    assert (a7 = b7) by lia. subst.
    assert (a8 = b8) by lia. subst.
    reflexivity.
Qed.

Lemma text_order_of_dates_is_day_order_witness :
  str_compare (js "2025-01-02") (js "2024-12-31") = Gt
  /\ day_number (js "2025-01-02") = 20250102.
Proof.
  split; [|reflexivity].
  rewrite (proj1 (text_order_of_dates_is_day_order (js "2025-01-02") (js "2024-12-31")
                    eq_refl eq_refl)).
  reflexivity.
Defined.

(* ====================================================================== *)
(** ** Grouping by date *)
(* ====================================================================== *)

Lemma Map_get_set_same : forall g k v, Map_get (Map_set g k v) k = Some v.
Proof.
  induction g as [|[k' v'] g IH]; intros k v; simpl.
  - unfold Map_get. simpl. rewrite jsstring_eqb_refl. reflexivity.
  - destruct (jsstring_eqb k' k) eqn:E.
    + unfold Map_get. simpl. rewrite jsstring_eqb_refl. reflexivity.
    + unfold Map_get in *. simpl. rewrite E. apply IH.
Qed.

Lemma Map_get_set_other : forall g k v d,
  d <> k -> Map_get (Map_set g k v) d = Map_get g d.
Proof.
  induction g as [|[k' v'] g IH]; intros k v d Hd; simpl.
  - unfold Map_get. simpl.
    replace (jsstring_eqb k d) with false; [reflexivity|].
    symmetry. apply jsstring_eqb_neq. congruence.
  - destruct (jsstring_eqb k' k) eqn:E.
    + apply jsstring_eqb_eq in E. subst k'. unfold Map_get. simpl.
      replace (jsstring_eqb k d) with false; [reflexivity|].
      symmetry. apply jsstring_eqb_neq. congruence.
    + unfold Map_get in *. simpl.
      destruct (jsstring_eqb k' d); [reflexivity|]. apply IH. exact Hd.
Qed.

Lemma Map_set_keys : forall g k v x,
  In x (map fst (Map_set g k v)) <-> x = k \/ In x (map fst g).
Proof.
  induction g as [|[k' v'] g IH]; intros k v x; simpl.
  - intuition.
  - destruct (jsstring_eqb k' k) eqn:E; simpl.
    + apply jsstring_eqb_eq in E. subst k'. intuition.
    + rewrite IH. intuition.
Qed.

Lemma NoDup_Map_set : forall g k v,
  NoDup (map fst g) -> NoDup (map fst (Map_set g k v)).
Proof.
  induction g as [|[k' v'] g IH]; intros k v H; simpl.
  - constructor; [intros []|constructor].
  - inversion H as [|? ? Hnot Hrest]; subst.
    destruct (jsstring_eqb k' k) eqn:E; simpl.
    + apply jsstring_eqb_eq in E. subst k'. constructor; assumption.
    + apply jsstring_eqb_neq in E. constructor.
      * intros Hin. apply Map_set_keys in Hin. destruct Hin as [Hin | Hin];
          [congruence | exact (Hnot Hin)].
      * apply IH. exact Hrest.
Qed.

Lemma Map_get_In : forall g d v,
  NoDup (map fst g) -> (In (d, v) g <-> Map_get g d = Some v).
Proof.
  induction g as [|[k' v'] g IH]; intros d v H; simpl.
  - unfold Map_get. simpl. split; [intros [] | discriminate].
  - inversion H as [|? ? Hnot Hrest]; subst.
    unfold Map_get in *. simpl.
    destruct (jsstring_eqb k' d) eqn:E.
    + apply jsstring_eqb_eq in E. subst k'. simpl. split.
      * intros [Heq | Hin]; [inversion Heq; reflexivity|].
        exfalso. apply Hnot. apply (in_map fst) in Hin. exact Hin.
      * intros Heq. left. inversion Heq. reflexivity.
    + apply jsstring_eqb_neq in E. rewrite <- (IH d v Hrest). split.
      * intros [Heq | Hin]; [congruence | exact Hin].
      * intros Hin. right. exact Hin.
Qed.

Lemma groupByDate_snoc : forall es e,
  groupByDate (es ++ [e])
  = Map_set (groupByDate es) (entry_date e)
      (match Map_get (groupByDate es) (entry_date e) with
       | Some g => g
       | None => []
       end ++ [e]).
Proof. intros es e. unfold groupByDate. rewrite fold_left_app. reflexivity. Qed.

Lemma groupByDate_keys : forall es, NoDup (map fst (groupByDate es)).
Proof.
  induction es as [|e es IH] using rev_ind.
  - constructor.
  - rewrite groupByDate_snoc. apply NoDup_Map_set. exact IH.
Qed.

Lemma groupByDate_get : forall es d,
  Map_get (groupByDate es) d
  = match filter (fun e => jsstring_eqb (entry_date e) d) es with
    | [] => None
    | g => Some g
    end.
Proof.
  induction es as [|e es IH] using rev_ind; intros d.
  - reflexivity.
  - rewrite groupByDate_snoc, filter_app. cbn [filter].
    destruct (jsstring_eqb (entry_date e) d) eqn:E.
    + apply jsstring_eqb_eq in E. subst d. rewrite Map_get_set_same, IH.
      destruct (filter (fun e0 => jsstring_eqb (entry_date e0) (entry_date e)) es);
        reflexivity.
    + apply jsstring_eqb_neq in E. rewrite Map_get_set_other by congruence.
      rewrite IH, app_nil_r. reflexivity.
Qed.

Lemma Map_set_push : forall g k e,
  Permutation
    (concat (map snd (Map_set g k
                        (match Map_get g k with Some x => x | None => [] end ++ [e]))))
    (e :: concat (map snd g)).
Proof.
  induction g as [|[k' v'] g IH]; intros k e.
  - simpl. constructor. constructor.
  - unfold Map_get in *. simpl. destruct (jsstring_eqb k' k) eqn:E; simpl.
    + rewrite <- app_assoc. simpl.
      apply Permutation_sym. apply Permutation_middle.
    + eapply Permutation_trans.
      * apply Permutation_app_head. apply IH.
      * apply Permutation_sym. apply Permutation_middle.
Qed.

(** X17.  [groupByDate] partitions the entries it is given: the keys of
    the map are distinct, the group under a date holds exactly the
    entries of that date, in the order they came in, no group is empty,
    and the groups together hold every entry once. *)
Theorem groupByDate_partitions_by_date :
  forall es,
    NoDup (map fst (groupByDate es))
    /\ (forall d g,
          In (d, g) (groupByDate es)
          <-> g <> [] /\ g = filter (fun e => jsstring_eqb (entry_date e) d) es)
    /\ Permutation (concat (map snd (groupByDate es))) es.
Proof.
  intros es. split; [apply groupByDate_keys|]. split.
  - intros d g. rewrite (Map_get_In _ d g (groupByDate_keys es)), groupByDate_get.
    destruct (filter (fun e => jsstring_eqb (entry_date e) d) es) as [|x l].
    + split; [discriminate|]. intros [Hne Hg]. contradiction.
    + split.
      * intros H. inversion H; subst. split; [discriminate | reflexivity].
      * intros [_ ->]. reflexivity.
  - induction es as [|e es IH] using rev_ind.
    + constructor.
    + rewrite groupByDate_snoc.
      eapply Permutation_trans; [apply Map_set_push|].
      eapply Permutation_trans; [apply perm_skip; exact IH|].
      apply Permutation_cons_append.
Qed.

(* ====================================================================== *)
(** ** The routes *)
(* ====================================================================== *)

Lemma verifyAuth_needs_key : forall apiKey request,
  verifyAuth apiKey request = Authenticated ->
  exists key, apiKey = Some key /\ key <> [] /\ presents key request.
Proof.
  intros apiKey request H. unfold verifyAuth in H.
  destruct (str_or_null apiKey) as [key|] eqn:Hk; [|discriminate].
  apply str_or_null_Some in Hk. destruct Hk as [-> Hkey].
  exists key. split; [reflexivity|]. split; [exact Hkey|].
  destruct (str_or_null (header_token (authorization request))) as [t|] eqn:Ht.
  - apply str_or_null_Some in Ht. destruct Ht as [Ht Hne]. rewrite Ht in H.
    destruct t as [|c t]; [congruence|]. cbn [str_or_null] in H.
    destruct (jsstring_eqb (c :: t) key) eqn:He; [|discriminate].
    apply jsstring_eqb_eq in He. subst key.
    apply header_token_Some in Ht. left. exact (proj1 Ht).
  - destruct (str_or_null (searchParams_get "token" request)) as [tok|] eqn:Hq;
      [|discriminate].
    apply str_or_null_Some in Hq. destruct Hq as [Hq _].
    destruct (jsstring_eqb tok key) eqn:He; [|discriminate].
    apply jsstring_eqb_eq in He. subst tok. right. exact Hq.
Qed.

Lemma verifyAuth_Rejected : forall apiKey request r,
  verifyAuth apiKey request = Rejected r ->
  (status_code r = 401 \/ status_code r = 500) /\ exists msg, body r = ErrorBody msg.
Proof.
  intros apiKey request r H. unfold verifyAuth in H.
  destruct (str_or_null apiKey) as [key|].
  - destruct (str_or_null
                match str_or_null (header_token (authorization request)) with
                | Some _ => header_token (authorization request)
                | None => searchParams_get "token" request
                end) as [tok|].
    + destruct (jsstring_eqb tok key); [discriminate|].
      inversion H; subst. split; [left; reflexivity | eexists; reflexivity].
    + inversion H; subst. split; [left; reflexivity | eexists; reflexivity].
  - inversion H; subst. split; [right; reflexivity | eexists; reflexivity].
Qed.

(** X18.  A request that does not carry the configured key reaches
    nothing: the list, read and delete routes answer it with the 401 or
    500 of [verifyAuth], an error body, and leave the database as it is;
    on SQLite not even the schema is created. *)
Theorem requests_without_the_key_reach_nothing :
  forall usePostgres apiKey now request id_param db,
    (forall key, apiKey = Some key -> key <> [] -> ~ presents key request) ->
    exists r,
      (status_code r = 401 \/ status_code r = 500)
      /\ (exists msg, body r = ErrorBody msg)
      /\ GET_entries usePostgres apiKey request db = (db, r)
      /\ GET_entry usePostgres apiKey request id_param db = (db, r)
      /\ DELETE_entry usePostgres apiKey now request id_param db = (db, r).
Proof.
  intros usePostgres apiKey now request id_param db Hno.
  destruct (verifyAuth apiKey request) as [|r] eqn:Hauth.
  - exfalso. apply verifyAuth_needs_key in Hauth.
    destruct Hauth as (key & Hk & Hne & Hp). exact (Hno key Hk Hne Hp).
  - exists r. destruct (verifyAuth_Rejected _ _ _ Hauth) as [Hs Hb].
    split; [exact Hs|]. split; [exact Hb|].
    unfold GET_entries, GET_entry, DELETE_entry. rewrite Hauth.
    repeat split.
Qed.

Lemma requests_without_the_key_reach_nothing_witness :
  exists r,
    status_code r = 401
    /\ DELETE_entry false (Some sample_key) (js "2025-01-03 08:00:00")
         (bearer (js "guess") []) (js "1") (Some sample_table)
       = (Some sample_table, r).
Proof.
  destruct (requests_without_the_key_reach_nothing false (Some sample_key)
              (js "2025-01-03 08:00:00") (bearer (js "guess") []) (js "1")
              (Some sample_table))
    as (r & Hs & _ & _ & _ & Hdel).
  - intros key Hk _ [Hh | Hq]; inversion Hk; subst key.
    + vm_compute in Hh. discriminate Hh.
    + vm_compute in Hq. discriminate Hq.
  - exists r. split; [|exact Hdel].
    vm_compute in Hdel. inversion Hdel. reflexivity.
Defined.


Lemma route_conditions : forall usePostgres request d limit offset,
  conditions usePostgres (route_filters request d limit offset)
  = conditions usePostgres (route_filters request d None None).
Proof. intros [] request d limit offset; reflexivity. Qed.

Lemma route_matching : forall usePostgres request d limit offset t,
  matching usePostgres (route_filters request d limit offset) t
  = matching usePostgres (route_filters request d None None) t.
Proof. intros. unfold matching. rewrite route_conditions. reflexivity. Qed.

Lemma route_matches_In : forall usePostgres request t e,
  In e (route_matches usePostgres request t) -> In e (rows t) /\ is_deleted e = 0.
Proof.
  intros usePostgres request t e H. unfold route_matches in H.
  destruct (type_param (searchParams_get "document_type" request));
    try contradiction;
    apply matching_In in H; destruct H as [Hin Hw];
    (split; [exact Hin|]);
    eapply default_listing_hides_deleted; eauto; reflexivity.
Qed.

(** What the list route returns passes the filters of the request,
    whatever limit and offset it asks for. *)
Lemma route_listing_matches : forall usePostgres request limit offset t db' res e,
  route_listing usePostgres request limit offset (Some t) = Ok (db', res) ->
  In e (entries res) -> In e (route_matches usePostgres request t).
Proof.
  intros usePostgres request limit offset t db' res e H Hin.
  unfold route_listing in H. unfold route_matches.
  destruct (type_param (searchParams_get "document_type" request)).
  - rewrite <- (route_matching _ _ _ limit offset).
    eapply listEntries_returns_matches; eauto.
  - rewrite <- (route_matching _ _ _ limit offset).
    eapply listEntries_returns_matches; eauto.
  - destruct (listEntries usePostgres (route_filters request None limit offset) (Some t))
      as [[db1 r1]|err]; cbn [bind] in H; [|discriminate].
    inversion H; subst. exact Hin.
Qed.

Lemma GET_entries_listed : forall usePostgres apiKey request t e,
  In e (listed (GET_entries usePostgres apiKey request (Some t))) ->
  In e (route_matches usePostgres request t).
Proof.
  intros usePostgres apiKey request t e H. unfold GET_entries in H.
  destruct (verifyAuth apiKey request) as [|r] eqn:Hauth.
  - match type of H with
    | context [route_listing ?b ?rq ?l ?o ?d] =>
        destruct (route_listing b rq l o d) as [[db' res]|err] eqn:Hl
    end.
    + unfold listed in H. cbn in H. eapply route_listing_matches; eauto.
    + contradiction.
  - apply verifyAuth_Rejected in Hauth. destruct Hauth as [_ [msg Hb]].
    unfold listed in H. cbn [snd] in H. rewrite Hb in H. contradiction.
Qed.

Lemma replace_row_ids : forall e' t,
  map id (rows (replace_row e' t)) = map id (rows t).
Proof.
  intros e' t. unfold replace_row. cbn [rows]. rewrite map_map.
  apply map_ext. intros r. destruct (id r =? id e') eqn:E; [|reflexivity].
  apply Z.eqb_eq in E. congruence.
Qed.

(** X19.  [DELETE /api/entries/:id] only flags: on a table that satisfies
    its constraints an authenticated delete of a stored entry answers
    200, removes no row and sets [is_deleted] and [updated_at] of that
    entry.  Afterwards no list request returns the entry, whatever its
    parameters, while [GET /api/entries/:id] still serves it, and
    deleting it again answers 200 again, not 404. *)
Theorem DELETE_entry_only_flags :
  forall usePostgres apiKey now request id_param t n e,
    verifyAuth apiKey request = Authenticated ->
    wf t ->
    parseInt id_param = Some n ->
    safe_integer n ->
    select_by_id n t = Some e ->
    exists t',
      DELETE_entry usePostgres apiKey now request id_param (Some t)
      = (Some t', json_response SuccessBody)
      /\ map id (rows t') = map id (rows t)
      /\ select_by_id n t' = Some (soft_deleted_row now e)
      /\ GET_entry usePostgres apiKey request id_param (Some t')
         = (Some t', json_response (EntryBody (soft_deleted_row now e)))
      /\ (forall request',
            ~ In (soft_deleted_row now e)
                (listed (GET_entries usePostgres apiKey request' (Some t'))))
      /\ (forall now',
            exists t'',
              DELETE_entry usePostgres apiKey now' request id_param (Some t')
              = (Some t'', json_response SuccessBody)).
Proof.
  intros usePostgres apiKey now request id_param t n e Hauth Hwf Hid _ Hsel.
  destruct (select_by_id_Some _ _ _ Hsel) as [_ Hn]. subst n.
  destruct (soft_delete_on_wf usePostgres now t e Hwf Hsel) as (Hdel & Hwf' & Hsel').
  exists (replace_row (soft_deleted_row now e) t).
  split; [|split; [|split; [|split; [|split]]]].
  - unfold DELETE_entry. rewrite Hauth, Hid, Hdel. reflexivity.
  - apply replace_row_ids.
  - exact Hsel'.
  - unfold GET_entry. rewrite Hauth, Hid, getEntry_Some, Hsel'. reflexivity.
  - intros request' Hin. apply GET_entries_listed in Hin.
    apply route_matches_In in Hin. destruct Hin as [_ Hdeleted].
    discriminate Hdeleted.
  - intros now'.
    destruct (soft_delete_on_wf usePostgres now'
                (replace_row (soft_deleted_row now e) t) (soft_deleted_row now e)
                Hwf' Hsel') as (Hdel' & _ & _).
    eexists. unfold DELETE_entry. rewrite Hauth, Hid.
    change (id e) with (id (soft_deleted_row now e)). rewrite Hdel'. reflexivity.
Qed.

Lemma DELETE_entry_only_flags_witness :
  exists t',
    DELETE_entry true (Some sample_key) (js "2025-01-03 08:00:00")
      (bearer sample_key []) (js "1") (Some sample_table)
    = (Some t', json_response SuccessBody)
    /\ List.length (rows t') = 4%nat
    /\ forall request',
         ~ In (soft_deleted_row (js "2025-01-03 08:00:00")
                 (sample_row 1 "p" "2025-01-01" 1 "first"))
             (listed (GET_entries true (Some sample_key) request' (Some t'))).
Proof.
  destruct (DELETE_entry_only_flags true (Some sample_key) (js "2025-01-03 08:00:00")
              (bearer sample_key []) (js "1") sample_table 1
              (sample_row 1 "p" "2025-01-01" 1 "first"))
    as (t' & Hdel & Hids & _ & _ & Hlist & _).
  - reflexivity.
  - apply wfb_wf. reflexivity.
  - reflexivity.
  - unfold safe_integer. split; reflexivity.
  - reflexivity.
  - exists t'. split; [exact Hdel|]. split; [|exact Hlist].
    rewrite <- (length_map id), Hids. reflexivity.
Defined.




























(* ====================================================================== *)
(** ** The routes that write *)
(* ====================================================================== *)



Lemma trim_nil : trim [] = [].
Proof. reflexivity. Qed.






